(** * Export_Microsoft_Todo: a shallow embedding of the exporter script

    The script [Export_Microsoft_Todo.py] authenticates against the identity
    provider, fetches the task lists, their tasks and attachments, and writes
    one document per non-empty list.  This development embeds the script in
    Rocq and states its properties.

    - Python [str] values are lists of Unicode code points ([N]).
    - The [re] module is embedded as a small backtracking matcher over the
      constructs the script's patterns use; [re.sub] is the driver on top.
    - The collaborators (MSAL, [requests], [html2text], the clock, the
      console) are fields of a [world] record; the script's effects are
      events recorded in a state threaded through a small monad. *)

From Stdlib Require Import Strings.String Strings.Ascii Numbers.DecimalString.
From Stdlib Require Import NArith ZArith Lia Bool Arith List.
Import ListNotations.

Local Open Scope N_scope.
Local Open Scope list_scope.

(** ** Strings *)

Definition char := N.
Definition str := list char.

(** An ASCII literal of the script as a list of code points. *)
Definition lit (s : string) : str := map N_of_ascii (list_ascii_of_string s).

Definition NL : char := 10.
Definition TAB : char := 9.
Definition SP : char := 32.
Definition STAR : char := 42.
Definition UNDERSCORE : char := 95.

Fixpoint str_eqb (a b : str) : bool :=
  match a, b with
  | [], [] => true
  | x :: a', y :: b' => (x =? y) && str_eqb a' b'
  | _, _ => false
  end.

(** [str.isspace] on one code point; the [re] module's [\s] on [str]
    patterns and [str.strip()] use the same table. *)
Definition isspace (c : char) : bool :=
  ((9 <=? c) && (c <=? 13)) || ((28 <=? c) && (c <=? 32))
  || (c =? 133) || (c =? 160) || (c =? 5760)
  || ((8192 <=? c) && (c <=? 8202))
  || (c =? 8232) || (c =? 8233) || (c =? 8239) || (c =? 8287) || (c =? 12288).

(** [str.lstrip()], [str.rstrip()] and [str.strip()] with no argument. *)
Fixpoint lstrip (s : str) : str :=
  match s with
  | [] => []
  | x :: s' => if isspace x then lstrip s' else s
  end.

Definition rstrip (s : str) : str := rev (lstrip (rev s)).

Definition strip (s : str) : str := rstrip (lstrip s).

(** [str.lower()].  Code points outside [A-Z] are left as they are: no other
    code point lowers to one of [h], [t], [m], [l], so the comparison with
    ['html'] the script makes is the same. *)
Definition lower_char (c : char) : char :=
  if (65 <=? c) && (c <=? 90) then c + 32 else c.

Definition lower (s : str) : str := map lower_char s.

(** Truth value of a [str] in a condition: non-empty. *)
Definition truthy (s : str) : bool :=
  match s with [] => false | _ :: _ => true end.

(** [str(n)] for a non-negative integer. *)
Definition str_of_N (n : N) : str :=
  lit (NilZero.string_of_uint (N.to_uint n)).

(** ** The [re] module *)

Module Re.

(** The constructs of the script's six patterns.  [Bol] and [Eol] are [^]
    and [$] under [re.MULTILINE]; the two patterns compiled without the flag
    have no anchor.  [Rep min p] is the greedy [p{min,}] over a set of
    characters: [\s*], [ +], [_{2,}], [\n{3,}]. *)
Inductive regex : Type :=
| Lit (c : char)
| CharSet (p : char -> bool)
| Bol
| Eol
| Cat (r1 r2 : regex)
| Alt (r1 r2 : regex)
| Rep (min : nat) (p : char -> bool).

(** A position in the subject string: the character before it, if any, and
    the text from it on. *)
Record cursor := mkCursor { prev : option char; rest : str }.

Definition start (s : str) : cursor := mkCursor None s.

(** Every way for [p{min,}] to match at a position, longest first. *)
Fixpoint greedy (p : char -> bool) (min : nat) (pv : option char) (s : str)
  : list cursor :=
  match s with
  | x :: s' => if p x then greedy p (Nat.pred min) (Some x) s' else []
  | [] => []
  end
  ++ match min with
     | O => [mkCursor pv s]
     | S _ => []
     end.

(** Every way for a pattern to match at a position, in the order the
    backtracking matcher tries them; each result is the position after the
    match. *)
Fixpoint rmatch (r : regex) (c : cursor) : list cursor :=
  match r with
  | Lit a =>
      match rest c with
      | x :: s => if x =? a then [mkCursor (Some x) s] else []
      | [] => []
      end
  | CharSet p =>
      match rest c with
      | x :: s => if p x then [mkCursor (Some x) s] else []
      | [] => []
      end
  | Bol =>
      match prev c with
      | None => [c]
      | Some x => if x =? NL then [c] else []
      end
  | Eol =>
      match rest c with
      | [] => [c]
      | x :: _ => if x =? NL then [c] else []
      end
  | Cat r1 r2 => flat_map (rmatch r2) (rmatch r1 c)
  | Alt r1 r2 => rmatch r1 c ++ rmatch r2 c
  | Rep min p => greedy p min (prev c) (rest c)
  end.

(** [pattern.match] at a position: the first way that succeeds. *)
Definition first_match (r : regex) (c : cursor) : option cursor :=
  hd_error (rmatch r c).

(** One more character copied to the output. *)
Definition step (c : cursor) : option (char * cursor) :=
  match rest c with
  | [] => None
  | x :: s => Some (x, mkCursor (Some x) s)
  end.

(** [pattern.match] at a position where the matcher must advance: the first
    way that consumes a character. *)
Definition first_advance (r : regex) (c : cursor) : option cursor :=
  find (fun c' => (length (rest c') <? length (rest c))%nat) (rmatch r c).

(** The loop of [re.sub]: at each position, leftmost first, a match is
    replaced and the scan goes on after it; otherwise one character is
    copied.  An empty match is replaced too, and the matcher is tried once
    more at the same position, where it must now advance.  [fuel] bounds
    the number of positions visited. *)
Fixpoint sub_loop (fuel : nat) (r : regex) (repl : str) (c : cursor) : str :=
  match fuel with
  | O => []
  | S fuel' =>
      let copy :=
        match step c with
        | None => []
        | Some (x, c1) => x :: sub_loop fuel' r repl c1
        end in
      match first_match r c with
      | Some c' =>
          if (length (rest c') <? length (rest c))%nat
          then repl ++ sub_loop fuel' r repl c'
          else
            repl ++ match first_advance r c with
                    | Some c2 => repl ++ sub_loop fuel' r repl c2
                    | None => copy
                    end
      | None => copy
      end
  end.

(** [re.sub(pattern, repl, string)] *)
Definition sub (r : regex) (repl : str) (s : str) : str :=
  sub_loop (S (length s)) r repl (start s).

End Re.

Import Re.

(** ** The two sanitizers *)

(** The five patterns of [clean_markdown], in the order of the source. *)

Definition ws : regex := Rep 0 isspace.

(** [^\s*(\*\*|__)\s*$] *)
Definition pat_bold_line : regex :=
  Cat Bol (Cat ws (Cat (Alt (Cat (Lit STAR) (Lit STAR))
                            (Cat (Lit UNDERSCORE) (Lit UNDERSCORE)))
                  (Cat ws Eol))).

(** [^\s*(\*\*|_)\s*$] *)
Definition pat_emph_line : regex :=
  Cat Bol (Cat ws (Cat (Alt (Cat (Lit STAR) (Lit STAR)) (Lit UNDERSCORE))
                  (Cat ws Eol))).

(** [^\s*_{2,}\s*$] *)
Definition pat_rule_line : regex :=
  Cat Bol (Cat ws (Cat (Rep 2 (N.eqb UNDERSCORE)) (Cat ws Eol))).

(** [\n{3,}] *)
Definition pat_newlines : regex := Rep 3 (N.eqb NL).

(** [ +$] *)
Definition pat_trailing : regex := Cat (Rep 1 (N.eqb SP)) Eol.

Definition clean_markdown (content : str) : str :=
  let content := sub pat_bold_line [] content in
  let content := sub pat_emph_line [] content in
  let content := sub pat_rule_line [] content in
  let content := sub pat_newlines [NL; NL] content in
  let content := sub pat_trailing [] content in
  strip content.

(** The character set of [sanitize_filename]: one of the nine characters
    between the brackets of the pattern. *)
Definition invalid_chars : str := lit "<>:/\|?*" ++ [34].

Definition is_invalid (c : char) : bool := existsb (N.eqb c) invalid_chars.

Definition sanitize_filename (filename : str) : str :=
  sub (CharSet is_invalid) [UNDERSCORE] filename.

(** ** Data model *)

(** A result dictionary of MSAL: keys and values, in insertion order. *)
Definition dict := list (str * str).

Fixpoint dict_get (k : str) (d : dict) : option str :=
  match d with
  | [] => None
  | (k', v) :: d' => if str_eqb k k' then Some v else dict_get k d'
  end.

(** [k in d] *)
Definition dict_in (k : str) (d : dict) : bool :=
  match dict_get k d with Some _ => true | None => false end.

(** Truth value of a result that is [None] or a dictionary. *)
Definition truthy_result (r : option dict) : bool :=
  match r with
  | Some (_ :: _) => true
  | _ => false
  end.

(** [str(x)] where [x] is a string or [None], as [print] shows it. *)
Definition str_of_opt (o : option str) : str :=
  match o with Some s => s | None => lit "None" end.

Record dateTimeTimeZone := mkDateTime { dateTime : str; timeZone : str }.

Record itemBody := mkBody { contentType : str; content : str }.

Record todoTask := mkTask {
  task_id : str;
  title : str;
  status : str;
  dueDateTime : option dateTimeTimeZone;
  reminderDateTime : option dateTimeTimeZone;
  body : option itemBody
}.

Record todoTaskList := mkTaskList { list_id : str; displayName : str }.

Record attachment := mkAttachment {
  att_id : str;
  att_name : str;
  att_size : N;
  odata_type : str
}.

(** What the script reads of a response to a listing request: the status
    code and the ['value'] member of the JSON body, when the body has one. *)
Record response (A : Type) := mkResponse {
  status_code : Z;
  value : option (list A)
}.
Arguments mkResponse {A} _ _.
Arguments status_code {A} _.
Arguments value {A} _.

(** [response.json().get('value', [])] *)
Definition get_value {A : Type} (r : response A) : list A :=
  match value r with
  | Some l => l
  | None => []
  end.

(** The response to an attachment download. *)
Record content_response := mkContent {
  content_status : Z;
  content_bytes : list N
}.

Record datetime := mkDatetime {
  year : N; month : N; day : N; hour : N; minute : N; second : N
}.

Definition digit (n : N) : char := 48 + n mod 10.
Definition pad2 (n : N) : str := [digit (n / 10); digit n].
Definition pad4 (n : N) : str :=
  [digit (n / 1000); digit (n / 100); digit (n / 10); digit n].

(** [d.strftime("%Y%m%d_%H%M%S")] *)
Definition strftime (d : datetime) : str :=
  pad4 (year d) ++ pad2 (month d) ++ pad2 (day d) ++ [UNDERSCORE]
  ++ pad2 (hour d) ++ pad2 (minute d) ++ pad2 (second d).

(** An authorization-code flow and an exception, as far as the script looks
    at them. *)
Record flow := mkFlow { auth_uri : str }.
Record exn := mkExn { exn_str : str; exn_args : list str }.

(** ** Configuration and collaborators *)

Record config := mkConfig {
  SAVE_AS_MARKDOWN : bool;
  SAVE_ATTACHMENTS : bool
}.

(** The values the source sets. *)
Definition shipped : config := mkConfig true false.

Definition GRAPH_API_URL : str :=
  lit "https://graph.microsoft.com/beta/me/todo/lists/".
Definition FILE_ATTACHMENT : str := lit "#microsoft.graph.taskFileAttachment".

(** Everything outside the script that its run depends on. *)
Record world := mkWorld {
  (* the text of the cache file, when the file exists *)
  cache_file : option str;
  (* [token_cache.serialize()] when the cache is saved *)
  serialize : str;
  (* [app.get_accounts()] *)
  get_accounts : list str;
  (* [app.acquire_token_silent(SCOPES, account=a)] *)
  acquire_token_silent : str -> option dict;
  (* [app.acquire_token_interactive(SCOPES)] *)
  acquire_token_interactive : dict;
  (* [app.initiate_auth_code_flow(...)] *)
  initiate_auth_code_flow : flow;
  (* [input(prompt)] *)
  input : str -> str;
  (* [urlparse(url).query] and [parse_qs] *)
  urlparse_query : str -> str;
  parse_qs : str -> list (str * list str);
  (* [app.acquire_token_by_auth_code_flow(flow, d)]: a result or an
     exception *)
  acquire_token_by_auth_code_flow :
    flow -> option str -> option str -> dict + exn;
  (* [json.dumps(x, indent=2)] on a result and on a string *)
  json_dumps : dict -> str;
  json_dumps_str : str -> str;
  (* [requests.get(url, headers=headers)] on the four kinds of resource *)
  get_lists : str -> response todoTaskList;
  get_tasks : str -> response todoTask;
  get_attachments : str -> response attachment;
  get_content : str -> content_response;
  (* [datetime.now()] at its n-th call of the run *)
  now : nat -> datetime;
  (* [h.handle(html)] of the configured converter *)
  handle : str -> str
}.

(** ** Effects *)

Inductive event : Type :=
| ECacheExists (found : bool)
| ECacheRead
| ECacheWrite (data : str)
| EGetAccounts
| EAcquireSilent (account : str)
| EAcquireInteractive
| EInitiateFlow
| EInput (prompt : str)
| EAcquireByAuthCode (code state : option str)
| EPrint (line : str)
| EGet (url : str) (authorization : str)
| EWriteText (filename : str) (text : str)
| EWriteBytes (filename : str) (data : list N).

(** The state a run threads: the events so far, oldest first, the number of
    calls of the clock, and the text written so far to the open document. *)
Record state := mkState {
  events : list event;
  clock : nat;
  file : str
}.

Definition init : state := mkState [] 0 [].

Inductive outcome (A : Type) : Type :=
| Ret (a : A)
| Exit
| Raise (e : str).
Arguments Ret {A} _.
Arguments Exit {A}.
Arguments Raise {A} _.

Definition M (A : Type) : Type := state -> outcome A * state.

Definition ret {A : Type} (a : A) : M A := fun st => (Ret a, st).

Definition bind {A B : Type} (m : M A) (k : A -> M B) : M B :=
  fun st =>
    match m st with
    | (Ret a, st') => k a st'
    | (Exit, st') => (Exit, st')
    | (Raise e, st') => (Raise e, st')
    end.

Notation "x <- m ;; k" := (bind m (fun x => k))
  (at level 61, m at next level, right associativity).
Notation "m ;; k" := (bind m (fun _ => k))
  (at level 61, right associativity).

Definition emit (e : event) : M unit :=
  fun st => (Ret tt, mkState (events st ++ [e]) (clock st) (file st)).

(** [exit()] *)
Definition exit {A : Type} : M A := fun st => (Exit, st).

Definition raise {A : Type} (e : str) : M A := fun st => (Raise e, st).

Definition print (line : str) : M unit := emit (EPrint line).

(** [datetime.now().strftime("%Y%m%d_%H%M%S")] *)
Definition current_timestamp (w : world) : M str :=
  fun st =>
    (Ret (strftime (now w (clock st))),
     mkState (events st) (S (clock st)) (file st)).

(** [file.write(text)] on the open document. *)
Definition file_write (text : str) : M unit :=
  fun st => (Ret tt, mkState (events st) (clock st) (file st ++ text)).

(** [with open(filename, 'w', encoding='utf-8') as file: block]: the file
    holds what the block wrote when the block is left, however it is left. *)
Definition with_open {A : Type} (filename : str) (block : M A) : M A :=
  fun st =>
    let '(o, st') := block (mkState (events st) (clock st) []) in
    (o, mkState (events st' ++ [EWriteText filename (file st')])
                (clock st') (file st)).

(** A [for] loop whose body updates one local variable. *)
Fixpoint for_each {A S : Type} (xs : list A) (s : S) (f : S -> A -> M S)
  : M S :=
  match xs with
  | [] => ret s
  | x :: xs' => s' <- f s x ;; for_each xs' s' f
  end.

(** [d[k]] *)
Definition subscript (d : dict) (k : str) : M str :=
  match dict_get k d with
  | Some v => ret v
  | None => raise (lit "KeyError")
  end.

(** ** The script: credential cache and authentication *)

Definition get_or_create_cache (w : world) : M unit :=
  emit (ECacheExists (match cache_file w with Some _ => true | None => false end)) ;;
  match cache_file w with
  | Some _ => emit ECacheRead
  | None => ret tt
  end.

Definition save_cache (w : world) : M unit :=
  emit (ECacheWrite (serialize w)).

(** The two local variables the authentication code assigns: [result], and
    [access_token], which is unbound until a branch assigns it. *)
Definition locals : Type := (option dict * option str)%type.

(** The interactive acquisition, written twice in the source with the same
    text: after a silent acquisition that gave nothing, and when there is no
    account. *)
Definition interactive (w : world) : M locals :=
  emit EAcquireInteractive ;;
  let result := acquire_token_interactive w in
  if dict_in (lit "access_token") result then
    access_token <- subscript result (lit "access_token") ;;
    ret (Some result, Some access_token)
  else
    print (str_of_opt (dict_get (lit "error") result)) ;;
    print (str_of_opt (dict_get (lit "error_description") result)) ;;
    exit.

(** "Try to get a token from the cache" and its two [else] branches. *)
Definition acquire (w : world) : M locals :=
  emit EGetAccounts ;;
  match get_accounts w with
  | account :: _ =>
      emit (EAcquireSilent account) ;;
      let result := acquire_token_silent w account in
      if truthy_result result then
        print (lit "Token found in cache") ;;
        match result with
        | Some d =>
            access_token <- subscript d (lit "access_token") ;;
            ret (result, Some access_token)
        | None => raise (lit "TypeError")
        end
      else
        print (lit "No suitable token found in cache. Acquiring new token...") ;;
        interactive w
  | [] =>
      print (lit "No accounts found. Acquiring new token...") ;;
      interactive w
  end.

(** [query_params.get(k, [None])[0]] *)
Definition first_param (k : str) (query_params : list (str * list str))
  : option str + exn :=
  match find (fun kv => str_eqb k (fst kv)) query_params with
  | Some (_, v :: _) => inl (Some v)
  | Some (_, []) =>
      inr (mkExn (lit "list index out of range")
                 [lit "list index out of range"])
  | None => inl None
  end.

(** The [except Exception as e] handler of the manual flow. *)
Definition report_and_exit {A : Type} (w : world) (e : exn) : M A :=
  print (lit "Error acquiring token: " ++ exn_str e) ;;
  match exn_args e with
  | a :: _ =>
      print (lit "Full error details:") ;;
      print (json_dumps_str w a)
  | [] => ret tt
  end ;;
  exit.

(** The block under [if not result:] the authorization-code flow with a
    pasted redirect URL. *)
Definition manual (w : world) : M (option dict) :=
  emit EInitiateFlow ;;
  let flow := initiate_auth_code_flow w in
  print (lit "Please go to this URL and sign in:") ;;
  print (auth_uri flow) ;;
  let prompt :=
    lit "After signing in, paste the full URL of the page you were redirected to: " in
  emit (EInput prompt) ;;
  let auth_response := input w prompt in
  let query_params := parse_qs w (urlparse_query w auth_response) in
  match first_param (lit "code") query_params with
  | inr e => report_and_exit w e
  | inl code =>
      match first_param (lit "state") query_params with
      | inr e => report_and_exit w e
      | inl state =>
          emit (EAcquireByAuthCode code state) ;;
          match acquire_token_by_auth_code_flow w flow code state with
          | inl result =>
              print (lit "Token acquisition result:") ;;
              print (json_dumps w result) ;;
              ret (Some result)
          | inr e => report_and_exit w e
          end
      end
  end.

(** [if "access_token" not in result: ... exit()] *)
Definition require_token (result : option dict) : M unit :=
  match result with
  | Some d =>
      if negb (dict_in (lit "access_token") d) then
        print (lit "Error: " ++ str_of_opt (dict_get (lit "error") d)) ;;
        print (lit "Error description: "
               ++ str_of_opt (dict_get (lit "error_description") d)) ;;
        exit
      else ret tt
  | None => raise (lit "TypeError")
  end.

(** The module-level code from the cache load to the last token check; its
    value is the [access_token] the requests carry. *)
Definition authenticate (w : world) : M str :=
  get_or_create_cache w ;;
  vars <- acquire w ;;
  let '(result, access_token) := vars in
  save_cache w ;;
  result <- (if negb (truthy_result result) then manual w else ret result) ;;
  require_token result ;;
  match access_token with
  | Some t => ret t
  | None => raise (lit "NameError")
  end.

(** ** The script: fetching and exporting *)

(** [requests.get(url, headers=headers)]; of the headers, the event keeps
    the authorization. *)
Definition requests_get {A : Type} (resource : str -> A)
    (url authorization : str) : M A :=
  emit (EGet url authorization) ;;
  ret (resource url).

Section Exporter.

Variable cfg : config.
Variable w : world.
Variable authorization : str.

(** "Download Attachments": [note] is the text before the file name in the
    document, which is all the two variants differ in. *)
Definition download_attachment (task_list : todoTaskList) (task : todoTask)
    (a : attachment) (note : str) : M unit :=
  if SAVE_ATTACHMENTS cfg && str_eqb (odata_type a) FILE_ATTACHMENT then
    attachment_content_response <-
      requests_get (get_content w)
        (GRAPH_API_URL ++ list_id task_list ++ lit "/tasks/" ++ task_id task
         ++ lit "/attachments/" ++ att_id a ++ lit "/$value")
        authorization ;;
    if (content_status attachment_content_response =? 200)%Z then
      let attachment_filename := lit "attachment_" ++ att_name a in
      emit (EWriteBytes attachment_filename
              (content_bytes attachment_content_response)) ;;
      file_write (note ++ attachment_filename ++ [NL])
    else ret tt
  else ret tt.

(** "Attachments", for the variant [md] (markdown) or plain text. *)
Definition export_attachments (md : bool) (task_list : todoTaskList)
    (task : todoTask) : M unit :=
  attachments_response <-
    requests_get (get_attachments w)
      (GRAPH_API_URL ++ list_id task_list ++ lit "/tasks/" ++ task_id task
       ++ lit "/attachments")
      authorization ;;
  let attachments := get_value attachments_response in
  match attachments with
  | [] => ret tt
  | _ :: _ =>
      file_write ((if md then lit "### Attachments:" else lit "  Attachments:")
                  ++ [NL]) ;;
      for_each attachments tt (fun _ a =>
        file_write ((if md then lit "- " else lit "    - ")
                    ++ att_name a ++ lit " (Size: " ++ str_of_N (att_size a)
                    ++ lit " bytes)" ++ [NL]) ;;
        download_attachment task_list task a
          (if md then lit "  - Saved attachment: "
           else lit "      Saved attachment: "))
  end.

(** "Body Content" of the markdown variant. *)
Definition export_body_md (task : todoTask) : M unit :=
  match body task with
  | Some b =>
      let content_type := contentType b in
      let content := content b in
      let markdown_content := clean_markdown (handle w content) in
      if truthy markdown_content && truthy (strip markdown_content) then
        file_write (lit "### Content:") ;;
        (if str_eqb (lower content_type) (lit "html")
         then file_write markdown_content
         else file_write content) ;;
        file_write [NL]
      else ret tt
  | None => ret tt
  end.

(** "Body Content" of the plain-text variant. *)
Definition export_body_txt (task : todoTask) : M unit :=
  match body task with
  | Some b => file_write (lit "  Content: " ++ content b ++ [NL])
  | None => ret tt
  end.

(** The body of [for task in tasks]; the loop's variable is
    [is_first_task]. *)
Definition export_task (md : bool) (task_list : todoTaskList)
    (is_first_task : bool) (task : todoTask) : M bool :=
  (if negb is_first_task then file_write [NL; NL] else ret tt) ;;
  file_write ((if md then lit "## Task: " else lit "  Task: ")
              ++ title task ++ [NL]) ;;
  file_write ((if md then lit "### Status: " else lit "  Status: ")
              ++ (if str_eqb (status task) (lit "completed")
                  then lit "Completed" else lit "Not Completed")
              ++ [NL]) ;;
  match dueDateTime task with
  | Some d =>
      file_write ((if md then lit "### Due: " else lit "  Due: ")
                  ++ dateTime d ++ [NL])
  | None => ret tt
  end ;;
  match reminderDateTime task with
  | Some d =>
      file_write ((if md then lit "### Reminder: " else lit "  Reminder: ")
                  ++ dateTime d ++ [NL])
  | None => ret tt
  end ;;
  export_attachments md task_list task ;;
  (if md then export_body_md task else export_body_txt task) ;;
  ret false.

Definition tasks_url (task_list : todoTaskList) : str :=
  GRAPH_API_URL ++ list_id task_list ++ lit "/tasks".

Definition exported_notice (task_list : todoTaskList) (filename : str) : str :=
  lit "Tasks for list '" ++ displayName task_list
  ++ lit "' have been exported to " ++ filename.

(** The body of [for task_list in lists] of the markdown variant. *)
Definition export_list_md (task_list : todoTaskList) : M unit :=
  current_time <- current_timestamp w ;;
  let list_name := sanitize_filename (displayName task_list) in
  let filename := list_name ++ lit "_" ++ current_time ++ lit ".md" in
  tasks_response <-
    requests_get (get_tasks w) (tasks_url task_list) authorization ;;
  let tasks := get_value tasks_response in
  match tasks with
  | [] => ret tt
  | _ :: _ =>
      with_open filename
        (file_write (lit "# List: " ++ displayName task_list ++ [NL; NL; NL]) ;;
         for_each tasks true (export_task true task_list)) ;;
      print (exported_notice task_list filename)
  end.

(** The body of [for task_list in lists] of the plain-text variant. *)
Definition export_list_txt (task_list : todoTaskList) : M unit :=
  tasks_response <-
    requests_get (get_tasks w) (tasks_url task_list) authorization ;;
  let tasks := get_value tasks_response in
  match tasks with
  | [] => ret tt
  | _ :: _ =>
      current_time <- current_timestamp w ;;
      let list_name := sanitize_filename (displayName task_list) in
      let filename := list_name ++ lit "_" ++ current_time ++ lit ".txt" in
      with_open filename
        (file_write (lit "List: " ++ displayName task_list ++ [NL; NL; NL]) ;;
         for_each tasks true (export_task false task_list)) ;;
      print (exported_notice task_list filename)
  end.

End Exporter.

(** "Get all task lists" and the two export loops. *)
Definition export (cfg : config) (w : world) (access_token : str) : M unit :=
  let authorization := lit "Bearer " ++ access_token in
  lists_response <-
    requests_get (get_lists w) (GRAPH_API_URL ++ lit "delta") authorization ;;
  let lists := get_value lists_response in
  if SAVE_AS_MARKDOWN cfg then
    for_each lists tt (fun _ task_list =>
      export_list_md cfg w authorization task_list)
  else
    for_each lists tt (fun _ task_list =>
      export_list_txt cfg w authorization task_list).

(** The whole script. *)
Definition main (cfg : config) (w : world) : M unit :=
  access_token <- authenticate w ;;
  export cfg w access_token.

Definition run (cfg : config) (w : world) : outcome unit * state :=
  main cfg w init.

(** ** Observations on texts *)

(** [s.split('\n')]: the lines of a text. *)
Fixpoint lines (s : str) : list str :=
  match s with
  | [] => [[]]
  | x :: s' =>
      if x =? NL then [] :: lines s'
      else match lines s' with
           | l :: ls => (x :: l) :: ls
           | [] => [[x]]
           end
  end.

(** [l.endswith(c)] for one character. *)
Fixpoint ends_with (c : char) (l : str) : bool :=
  match l with
  | [] => false
  | x :: l' =>
      match l' with
      | [] => x =? c
      | _ :: _ => ends_with c l'
      end
  end.

(** The text is at an end of line: at its end or before a newline. *)
Definition at_eol (s : str) : bool :=
  match s with
  | [] => true
  | x :: _ => x =? NL
  end.

(** No space stands at an end of line. *)
Fixpoint no_space_at_eol (s : str) : bool :=
  match s with
  | [] => true
  | x :: s' => negb ((x =? SP) && at_eol s') && no_space_at_eol s'
  end.

(** Three newlines in a row somewhere in the text. *)
Fixpoint has_newline_run3 (s : str) : bool :=
  match s with
  | [] => false
  | x :: s' =>
      match s' with
      | y :: z :: _ => ((x =? NL) && (y =? NL) && (z =? NL)) || has_newline_run3 s'
      | _ => false
      end
  end.

(** Spaces, if any, and then an end of line; and the text after the
    leading spaces. *)
Fixpoint spaces_to_eol (s : str) : bool :=
  match s with
  | [] => true
  | x :: s' => if SP =? x then spaces_to_eol s' else x =? NL
  end.

Fixpoint after_spaces (s : str) : str :=
  match s with
  | [] => []
  | x :: s' => if SP =? x then after_spaces s' else s
  end.

(** [re.sub] from a position on, with the fuel its text needs. *)
Definition sub_from (r : regex) (repl : str) (c : cursor) : str :=
  sub_loop (S (length (rest c))) r repl c.

(** Inputs the theorems below are evaluated at. *)
Definition text_tab : str := lit "a" ++ [TAB; NL] ++ lit "b".
Definition text_blank_lines : str := lit "a" ++ [NL; SP; NL; SP; NL] ++ lit "b".

(** Empty or white space only. *)
Definition blank (s : str) : bool := forallb isspace s.

Definition is_digit (c : char) : bool := (48 <=? c) && (c <=? 57).

(** Eight digits, an underscore, six digits: [YYYYMMDD_HHMMSS]. *)
Definition is_timestamp (s : str) : bool :=
  match s with
  | [y1; y2; y3; y4; m1; m2; d1; d2; u; h1; h2; n1; n2; s1; s2] =>
      forallb is_digit [y1; y2; y3; y4; m1; m2; d1; d2]
      && (u =? UNDERSCORE)
      && forallb is_digit [h1; h2; n1; n2; s1; s2]
  | _ => false
  end.

(** ** Observations on traces *)

Definition is_cache_load (e : event) : bool :=
  match e with
  | ECacheExists _ | ECacheRead => true
  | _ => false
  end.

Definition is_cache_write (e : event) : bool :=
  match e with
  | ECacheWrite _ => true
  | _ => false
  end.

Definition is_silent (e : event) : bool :=
  match e with
  | EAcquireSilent _ => true
  | _ => false
  end.

Definition is_interactive (e : event) : bool :=
  match e with
  | EAcquireInteractive => true
  | _ => false
  end.

(** The events of the manual authorization-code flow. *)
Definition is_manual (e : event) : bool :=
  match e with
  | EInitiateFlow | EInput _ | EAcquireByAuthCode _ _ => true
  | _ => false
  end.

(** An attempt to acquire a token, at any stage. *)
Definition is_acquire (e : event) : bool :=
  is_silent e || is_interactive e || is_manual e.

(** The events of requests and attachment files. *)
Definition is_fetch (e : event) : bool :=
  match e with
  | EGet _ _ | EWriteBytes _ _ => true
  | _ => false
  end.

(** The events of the export part of the script. *)
Definition is_export (e : event) : bool :=
  match e with
  | EGet _ _ | EWriteBytes _ _ | EWriteText _ _ | EPrint _ => true
  | _ => false
  end.

Definition count (p : event -> bool) (tr : list event) : nat :=
  length (filter p tr).

(** The names of the documents written, in order. *)
Fixpoint written_documents (tr : list event) : list str :=
  match tr with
  | [] => []
  | EWriteText filename _ :: tr' => filename :: written_documents tr'
  | _ :: tr' => written_documents tr'
  end.

(** The events between two states of one run. *)
Definition emitted (st st' : state) : list event :=
  skipn (length (events st)) (events st').

(** [st'] comes after [st] by events that all satisfy [p]. *)
Definition extends (p : event -> bool) (st st' : state) : Prop :=
  exists new, events st' = events st ++ new /\ forallb p new = true.

(** A computation that returns normally from every state and emits only
    events that satisfy [p]. *)
Definition safe (p : event -> bool) {A : Type} (m : M A) : Prop :=
  forall st, exists a st', m st = (Ret a, st') /\ extends p st st'.

(** The trace of a whole run. *)
Definition trace (cfg : config) (w : world) : list event :=
  events (snd (run cfg w)).

(** The events of the cache load at the start of a run. *)
Definition cache_load_trace (w : world) : list event :=
  events (snd (get_or_create_cache w init)).

(** C1 as the specification states it, for one run: if the interactive
    acquisition was attempted and gave no token, the manual flow is
    entered. *)
Definition manual_fallback_entered (cfg : config) (w : world) : Prop :=
  In EAcquireInteractive (trace cfg w) ->
  dict_in (lit "access_token") (acquire_token_interactive w) = false ->
  In EInitiateFlow (trace cfg w).

(** ** Worlds the theorems are evaluated at *)

Definition a_time : datetime := mkDatetime 2024 3 7 9 5 0.

Definition make_world (accounts : list str) (silent : option dict)
    (interactive_result : dict) (lists : response todoTaskList)
    (tasks : response todoTask) (attachments : response attachment)
    (download : content_response) (converter : str -> str) : world :=
  mkWorld None (lit "cache") accounts (fun _ => silent) interactive_result
    (mkFlow (lit "https://login.example/authorize"))
    (fun _ => []) (fun u => u) (fun _ => []) (fun _ _ _ => inl [])
    (fun _ => []) (fun s => s)
    (fun _ => lists) (fun _ => tasks) (fun _ => attachments)
    (fun _ => download) (fun _ => a_time) converter.

Definition token_result : dict := [(lit "access_token", lit "TOK")].
Definition denied_result : dict :=
  [(lit "error", lit "access_denied");
   (lit "error_description", lit "The user denied the request")].

Definition groceries : todoTaskList := mkTaskList (lit "L1") (lit "Groceries").

Definition buy_milk : todoTask :=
  mkTask (lit "t1") (lit "Buy milk") (lit "completed") None None
    (Some (mkBody (lit "html") (lit "<b>2%</b>"))).

(** A text body that is nothing but an emphasis marker. *)
Definition marker_note : todoTask :=
  mkTask (lit "t2") (lit "Note") (lit "notStarted") None None
    (Some (mkBody (lit "text") (lit "**"))).

Definition receipt : attachment :=
  mkAttachment (lit "a1") (lit "receipt.pdf") 120 FILE_ATTACHMENT.

(** No account in the cache, and the interactive sign-in is refused. *)
Definition w_denied : world :=
  make_world [] None denied_result (mkResponse 200 (Some []))
    (mkResponse 200 (Some [])) (mkResponse 200 (Some []))
    (mkContent 200 []) (fun s => s).

(** A cached account whose token is found silently; one list with one
    task. *)
Definition w_cached : world :=
  make_world [lit "user"] (Some token_result) denied_result
    (mkResponse 200 (Some [groceries]))
    (mkResponse 200 (Some [buy_milk])) (mkResponse 200 (Some [receipt]))
    (mkContent 200 [1; 2; 3]) (fun s => s).

(** No account, and the interactive sign-in gives a token. *)
Definition w_fresh : world :=
  make_world [] None token_result (mkResponse 200 (Some [groceries]))
    (mkResponse 200 (Some [marker_note])) (mkResponse 200 (Some []))
    (mkContent 200 []) (fun s => s).


(** The download of the attachment is refused. *)
Definition w_no_download : world :=
  make_world [lit "user"] (Some token_result) denied_result
    (mkResponse 200 (Some [groceries]))
    (mkResponse 200 (Some [buy_milk])) (mkResponse 200 (Some [receipt]))
    (mkContent 404 []) (fun s => s).

(** A task whose HTML body is white space and emphasis markers only, and a
    task with a plain-text body. *)
Definition html_blank : todoTask :=
  mkTask (lit "t3") (lit "Blank") (lit "notStarted") None None
    (Some (mkBody (lit "html") (lit "__" ++ [NL] ++ lit " **  "))).

Definition plain_note : todoTask :=
  mkTask (lit "t4") (lit "Plain") (lit "notStarted") None None
    (Some (mkBody (lit "Text") (lit "call  " ++ [NL] ++ lit "back"))).

(** ** Names and paths the theorems speak of *)

(** The name of the document of a list: the sanitized display name, the
    time of the clock at the state, and the extension. *)
Definition document_name (w : world) (tl : todoTaskList) (st : state)
    (ext : string) : str :=
  sanitize_filename (displayName tl) ++ lit "_"
  ++ strftime (now w (clock st)) ++ lit ext.

(** The address the content of an attachment is requested at. *)
Definition content_url (tl : todoTaskList) (t : todoTask) (a : attachment)
  : str :=
  GRAPH_API_URL ++ list_id tl ++ lit "/tasks/" ++ task_id t
  ++ lit "/attachments/" ++ att_id a ++ lit "/$value".

(** The events up to the interactive acquisition, when the run reaches
    it: there is no account, or the silent acquisition gave nothing. *)
Definition silent_prelude (w : world) (pre : list event) : Prop :=
  (get_accounts w = []
   /\ pre = [EGetAccounts;
             EPrint (lit "No accounts found. Acquiring new token...")])
  \/ (exists a l,
        get_accounts w = a :: l
        /\ truthy_result (acquire_token_silent w a) = false
        /\ pre = [EGetAccounts; EAcquireSilent a;
                  EPrint (lit "No suitable token found in cache. Acquiring new token...")]).

Definition interactive_failure_notice (w : world) : list event :=
  [EPrint (str_of_opt (dict_get (lit "error") (acquire_token_interactive w)));
   EPrint (str_of_opt (dict_get (lit "error_description")
                         (acquire_token_interactive w)))].

(** The four ways the authentication can go, each with the outcome and the
    events after the cache load. *)
Inductive auth_path (w : world) : outcome str -> list event -> Prop :=
| SilentToken a l d tok :
    get_accounts w = a :: l ->
    acquire_token_silent w a = Some d ->
    truthy_result (Some d) = true ->
    dict_get (lit "access_token") d = Some tok ->
    auth_path w (Ret tok)
      [EGetAccounts; EAcquireSilent a; EPrint (lit "Token found in cache");
       ECacheWrite (serialize w)]
| SilentKeyError a l d :
    get_accounts w = a :: l ->
    acquire_token_silent w a = Some d ->
    truthy_result (Some d) = true ->
    dict_get (lit "access_token") d = None ->
    auth_path w (Raise (lit "KeyError"))
      [EGetAccounts; EAcquireSilent a; EPrint (lit "Token found in cache")]
| InteractiveToken pre tok :
    silent_prelude w pre ->
    dict_get (lit "access_token") (acquire_token_interactive w) = Some tok ->
    auth_path w (Ret tok)
      (pre ++ [EAcquireInteractive; ECacheWrite (serialize w)])
| InteractiveFailure pre :
    silent_prelude w pre ->
    dict_get (lit "access_token") (acquire_token_interactive w) = None ->
    auth_path w Exit
      (pre ++ EAcquireInteractive :: interactive_failure_notice w).

(** The outcome of the run for an outcome of the authentication: a token
    lets the export run, which returns normally. *)
Definition outcome_of_run (o : outcome str) : outcome unit :=
  match o with
  | Ret _ => Ret tt
  | Exit => Exit
  | Raise e => Raise e
  end.

(** ** Subsequences *)

(** [a] is [b] with some of its characters deleted. *)
Inductive subseq : str -> str -> Prop :=
| subseq_nil : subseq [] []
| subseq_skip (x : char) (a b : str) : subseq a b -> subseq a (x :: b)
| subseq_keep (x : char) (a b : str) : subseq a b -> subseq (x :: a) (x :: b).

(** Inputs for the theorems on [clean_markdown]. *)
Definition text_only_space : str := [SP; NL; TAB; 160; NL].

(** ** More observations on traces *)

(** An event of the export whose request, if it is one, carries the
    authorization [auth]. *)
Definition carries (auth : str) (e : event) : bool :=
  match e with
  | EGet _ a => str_eqb a auth
  | EWriteBytes _ _ | EWriteText _ _ | EPrint _ => true
  | _ => false
  end.

Definition is_bytes_write (e : event) : bool :=
  match e with
  | EWriteBytes _ _ => true
  | _ => false
  end.

(** An event of the export other than the writing of an attachment file. *)
Definition is_export_no_bytes (e : event) : bool :=
  is_export e && negb (is_bytes_write e).

(** A request, an attachment file or a document. *)
Definition is_output (e : event) : bool :=
  match e with
  | EGet _ _ | EWriteBytes _ _ | EWriteText _ _ => true
  | _ => false
  end.

(** The list has a task, by the response to the request for its tasks. *)
Definition has_tasks (w : world) (tl : todoTaskList) : bool :=
  match get_value (get_tasks w (tasks_url tl)) with
  | [] => false
  | _ :: _ => true
  end.

(** The address the attachments of a task are listed at. *)
Definition attachments_url (tl : todoTaskList) (t : todoTask) : str :=
  GRAPH_API_URL ++ list_id tl ++ lit "/tasks/" ++ task_id t
  ++ lit "/attachments".

(** A cached account whose silent result is not empty and has no
    [access_token]. *)
Definition w_no_token_key : world :=
  make_world [lit "user"] (Some [(lit "token_type", lit "Bearer")])
    token_result (mkResponse 200 (Some [groceries]))
    (mkResponse 200 (Some [buy_milk])) (mkResponse 200 (Some []))
    (mkContent 200 []) (fun s => s).

(** The fields of a [datetime] are in the ranges of the calendar and the
    clock. *)
Definition valid_datetime (d : datetime) : Prop :=
  year d < 10000 /\ month d < 100 /\ day d < 100
  /\ hour d < 100 /\ minute d < 100 /\ second d < 100.

Definition is_request (e : event) : bool :=
  match e with
  | EGet _ _ => true
  | _ => false
  end.

(** The texts of the documents written, in order. *)
Fixpoint written_texts (tr : list event) : list str :=
  match tr with
  | [] => []
  | EWriteText _ text :: tr' => text :: written_texts tr'
  | _ :: tr' => written_texts tr'
  end.

(** ** The export as requests and texts *)

(** [sep.join(parts)] *)
Fixpoint join (sep : str) (parts : list str) : str :=
  match parts with
  | [] => []
  | p :: ps =>
      match ps with
      | [] => p
      | _ :: _ => p ++ sep ++ join sep ps
      end
  end.

Definition is_file_attachment (a : attachment) : bool :=
  str_eqb (odata_type a) FILE_ATTACHMENT.

Section Documents.

Variable cfg : config.
Variable w : world.
Variable auth : str.

(** The events of [download_attachment]. *)
Definition download_events (tl : todoTaskList) (t : todoTask)
    (a : attachment) : list event :=
  if SAVE_ATTACHMENTS cfg && is_file_attachment a then
    let r := get_content w (content_url tl t a) in
    EGet (content_url tl t a) auth
    :: (if (content_status r =? 200)%Z
        then [EWriteBytes (lit "attachment_" ++ att_name a) (content_bytes r)]
        else [])
  else [].

(** The events of the export of one task. *)
Definition task_events (tl : todoTaskList) (t : todoTask) : list event :=
  EGet (attachments_url tl t) auth
  :: flat_map (download_events tl t)
       (get_value (get_attachments w (attachments_url tl t))).

(** The text the export of one task writes when the task is the first of
    its list, in the variant [md]. *)
Definition task_text (md : bool) (tl : todoTaskList) (t : todoTask) : str :=
  file (snd (export_task cfg w auth md tl true t init)).

Definition heading (md : bool) (tl : todoTaskList) : str :=
  (if md then lit "# List: " else lit "List: ")
  ++ displayName tl ++ [NL; NL; NL].

(** The heading and the texts of the tasks, a blank line between two
    tasks. *)
Definition document (md : bool) (tl : todoTaskList) : str :=
  heading md tl
  ++ join [NL; NL]
       (map (task_text md tl) (get_value (get_tasks w (tasks_url tl)))).

(** The requests of the export of one task: the listing of the
    attachments, and the content of each file attachment when attachments
    are saved. *)
Definition task_requests (tl : todoTaskList) (t : todoTask) : list event :=
  EGet (attachments_url tl t) auth
  :: (if SAVE_ATTACHMENTS cfg
      then map (fun a => EGet (content_url tl t a) auth)
             (filter is_file_attachment
                (get_value (get_attachments w (attachments_url tl t))))
      else []).

Definition list_requests (tl : todoTaskList) : list event :=
  EGet (tasks_url tl) auth
  :: flat_map (task_requests tl) (get_value (get_tasks w (tasks_url tl))).

End Documents.

(** The requests of a whole export with the token [tok]. *)
Definition run_requests (cfg : config) (w : world) (tok : str)
  : list event :=
  let auth := lit "Bearer " ++ tok in
  EGet (GRAPH_API_URL ++ lit "delta") auth
  :: flat_map (list_requests cfg w auth)
       (get_value (get_lists w (GRAPH_API_URL ++ lit "delta"))).

(** The extension of the documents of the variant [md]. *)
Definition extension (md : bool) : str :=
  if md then lit ".md" else lit ".txt".

(** [name] is a name the export gives the document of the list [tl]: the
    sanitized display name, an underscore, a time stamp and the extension. *)
Definition named (md : bool) (name : str) (tl : todoTaskList) : Prop :=
  exists stamp,
    is_timestamp stamp = true
    /\ name = sanitize_filename (displayName tl) ++ lit "_" ++ stamp
              ++ extension md.

(** What the export of the list [tl] by [m] adds to the trace from the
    state [st]: the requests of the list, and its document when it has a
    task. *)
Definition exports_list (cfg : config) (w : world) (auth : str) (md : bool)
    (m : M unit) (tl : todoTaskList) (st : state) : Prop :=
  exists new clk,
    m st = (Ret tt, mkState (events st ++ new) clk (file st))
    /\ filter is_request new = list_requests cfg w auth tl
    /\ written_texts new
       = (if has_tasks w tl then [document cfg w auth md tl] else [])
    /\ Forall2 (named md) (written_documents new)
         (if has_tasks w tl then [tl] else []).

(** Two lists whose names differ in a character that is not allowed in a
    file name, and a world that has both. *)
Definition plans_a : todoTaskList := mkTaskList (lit "L1") (lit "Plans: A").
Definition plans_b : todoTaskList := mkTaskList (lit "L2") (lit "Plans? A").

Definition w_two_lists : world :=
  make_world [lit "user"] (Some token_result) token_result
    (mkResponse 200 (Some [plans_a; plans_b]))
    (mkResponse 200 (Some [buy_milk])) (mkResponse 200 (Some []))
    (mkContent 200 []) (fun s => s).

(** * Properties *)

(** ** The [re.sub] loop *)

Section SubLoop.

Variable r : regex.
Variable repl : str.

(** The loop never runs out of fuel: any fuel above the length of the text
    left gives the same output. *)
Lemma sub_loop_fuel (f1 : nat) :
  forall (f2 : nat) (c : cursor),
    (length (rest c) < f1)%nat -> (length (rest c) < f2)%nat ->
    sub_loop f1 r repl c = sub_loop f2 r repl c.
Proof.
  induction f1 as [|f1 IH]; intros f2 c H1 H2; [lia|].
  destruct f2 as [|f2]; [lia|].
  assert (Hcopy :
    match step c with
    | None => []
    | Some (x, c1) => x :: sub_loop f1 r repl c1
    end =
    match step c with
    | None => []
    | Some (x, c1) => x :: sub_loop f2 r repl c1
    end).
  { unfold step. destruct (rest c) as [|x s] eqn:E; [reflexivity|].
    f_equal. apply IH; simpl in *; lia. }
  simpl. rewrite Hcopy.
  destruct (first_match r c) as [c'|]; [|reflexivity].
  destruct (length (rest c') <? length (rest c))%nat eqn:E.
  - apply Nat.ltb_lt in E. f_equal. apply IH; lia.
  - f_equal. destruct (first_advance r c) as [c2|] eqn:A; [|reflexivity].
    apply find_some in A. destruct A as [_ A]. apply Nat.ltb_lt in A.
    f_equal. apply IH; lia.
Qed.

(** The loop, one position at a time. *)
Lemma sub_from_eq (c : cursor) :
  sub_from r repl c =
  let copy :=
    match step c with
    | None => []
    | Some (x, c1) => x :: sub_from r repl c1
    end in
  match first_match r c with
  | Some c' =>
      if (length (rest c') <? length (rest c))%nat
      then repl ++ sub_from r repl c'
      else
        repl ++ match first_advance r c with
                | Some c2 => repl ++ sub_from r repl c2
                | None => copy
                end
  | None => copy
  end.
Proof.
  unfold sub_from at 1. cbn [sub_loop].
  assert (Hcopy :
    match step c with
    | None => []
    | Some (x, c1) => x :: sub_loop (length (rest c)) r repl c1
    end =
    match step c with
    | None => []
    | Some (x, c1) => x :: sub_from r repl c1
    end).
  { unfold step, sub_from. destruct (rest c) as [|x s]; reflexivity. }
  cbv zeta. rewrite Hcopy.
  destruct (first_match r c) as [c'|]; [|reflexivity].
  destruct (length (rest c') <? length (rest c))%nat eqn:E.
  - apply Nat.ltb_lt in E. f_equal. unfold sub_from.
    apply sub_loop_fuel; lia.
  - f_equal. destruct (first_advance r c) as [c2|] eqn:A; [|reflexivity].
    apply find_some in A. destruct A as [_ A]. apply Nat.ltb_lt in A.
    f_equal. unfold sub_from. apply sub_loop_fuel; lia.
Qed.

Lemma sub_is_sub_from (s : str) : sub r repl s = sub_from r repl (start s).
Proof. reflexivity. Qed.

End SubLoop.

(** ** [sanitize_filename] *)

Lemma sub_from_charset (p : char -> bool) (u : char) (s : str) :
  forall pv, sub_from (CharSet p) [u] (mkCursor pv s)
             = map (fun c => if p c then u else c) s.
Proof.
  induction s as [|x s IH]; intros pv; rewrite sub_from_eq.
  - reflexivity.
  - unfold first_match, step. cbn [rmatch rest map].
    destruct (p x) eqn:E.
    + cbn [hd_error rest].
      replace (length s <? length (x :: s))%nat with true
        by (symmetry; apply Nat.ltb_lt; simpl; lia).
      rewrite IH. reflexivity.
    + cbn [hd_error]. rewrite IH. reflexivity.
Qed.

Lemma sanitize_filename_map (filename : str) :
  sanitize_filename filename
  = map (fun c => if is_invalid c then UNDERSCORE else c) filename.
Proof.
  unfold sanitize_filename. rewrite sub_is_sub_from. apply sub_from_charset.
Qed.

Lemma is_invalid_In (c : char) : is_invalid c = true <-> In c invalid_chars.
Proof.
  unfold is_invalid. rewrite existsb_exists. split.
  - intros [x [Hin Heq]]. apply N.eqb_eq in Heq. now subst.
  - intros Hin. exists c. split; [assumption|apply N.eqb_refl].
Qed.

(** The nine characters of the set. *)
Example invalid_chars_are :
  invalid_chars = [60; 62; 58; 47; 92; 124; 63; 42; 34]
  /\ invalid_chars = lit "<>:/\|?*" ++ [34].
Proof. split; reflexivity. Qed.

(** C9. The output of [sanitize_filename] has the length of its input; at
    every position, an input character among the nine of [invalid_chars] (less-than,
    greater-than, colon, double quote, slash, backslash, bar, question mark,
    star) has become
    an underscore and any other character is unchanged; none of the nine
    characters occurs in the output; and the output is a function of the
    input alone (the definition takes no other argument and no state). *)
Theorem C9_sanitize_filename (filename : str) :
  length (sanitize_filename filename) = length filename
  /\ (forall (i : nat) (c : char),
        nth_error filename i = Some c ->
        nth_error (sanitize_filename filename) i
        = Some (if is_invalid c then UNDERSCORE else c))
  /\ (forall c, In c (sanitize_filename filename) -> ~ In c invalid_chars)
  /\ (forall other, other = filename ->
        sanitize_filename other = sanitize_filename filename).
Proof.
  split; [|split; [|split]].
  - rewrite sanitize_filename_map. apply length_map.
  - intros i c H. rewrite sanitize_filename_map, nth_error_map, H. reflexivity.
  - intros c Hin Hbad. rewrite sanitize_filename_map in Hin.
    apply in_map_iff in Hin. destruct Hin as [x [Hx _]].
    destruct (is_invalid x) eqn:E; subst c.
    + apply is_invalid_In in Hbad. discriminate Hbad.
    + apply is_invalid_In in Hbad. congruence.
  - intros other ->. reflexivity.
Qed.

(** ** [clean_markdown]: the end of the lines *)

(** The ways [ +$] and its tails can match: the spaces up to an end of
    line, all of them or none. *)
Lemma spaces_eol_candidates (s : str) :
  forall pv,
    map rest (flat_map (rmatch Eol) (greedy (N.eqb SP) 0 pv s))
    = if spaces_to_eol s then [after_spaces s] else [].
Proof.
  induction s as [|x s IH]; intros pv.
  - reflexivity.
  - cbn [greedy spaces_to_eol after_spaces].
    destruct (SP =? x) eqn:E.
    + apply N.eqb_eq in E. subst x. cbn [Nat.pred].
      rewrite flat_map_app, map_app, IH. cbn. apply app_nil_r.
    + cbn. destruct (x =? NL); reflexivity.
Qed.

Lemma first_match_trailing (pv : option char) (s : str) :
  option_map rest (first_match pat_trailing (mkCursor pv s))
  = match s with
    | x :: s' =>
        if (SP =? x) && spaces_to_eol s' then Some (after_spaces s') else None
    | [] => None
    end.
Proof.
  unfold first_match, pat_trailing.
  change (rmatch (Cat (Rep 1 (N.eqb SP)) Eol) (mkCursor pv s))
    with (flat_map (rmatch Eol) (greedy (N.eqb SP) 1 pv s)).
  destruct s as [|x s']; [reflexivity|].
  cbn [greedy]. destruct (SP =? x) eqn:E; [|reflexivity].
  cbn [Nat.pred andb]. rewrite app_nil_r.
  pose proof (spaces_eol_candidates s' (Some x)) as H.
  destruct (flat_map (rmatch Eol) (greedy (N.eqb SP) 0 (Some x) s')) as [|c l];
    destruct (spaces_to_eol s'); cbn [map hd_error option_map] in *; congruence.
Qed.

Lemma after_spaces_length (s : str) : (length (after_spaces s) <= length s)%nat.
Proof.
  induction s as [|x s IH]; [reflexivity|].
  cbn [after_spaces]. destruct (SP =? x); cbn [length]; lia.
Qed.

Lemma after_spaces_eol (s : str) :
  spaces_to_eol s = true -> at_eol (after_spaces s) = true.
Proof.
  induction s as [|x s IH]; [reflexivity|].
  cbn [spaces_to_eol after_spaces]. destruct (SP =? x); [assumption|].
  intros H. exact H.
Qed.


(** After the [ +$] pass no space is left at an end of line; the second
    component tells where the output starts with an end of line, which the
    induction needs. *)
Lemma trailing_pass_from (n : nat) :
  forall (s : str) (pv : option char),
    (length s <= n)%nat ->
    no_space_at_eol (sub_from pat_trailing [] (mkCursor pv s)) = true
    /\ at_eol (sub_from pat_trailing [] (mkCursor pv s))
       = match s with
         | [] => true
         | x :: s' => (x =? NL) || ((SP =? x) && spaces_to_eol s')
         end.
Proof.
  induction n as [|n IH]; intros s pv Hlen.
  - destruct s; [|simpl in Hlen; lia]. split; reflexivity.
  - destruct s as [|x s']; [split; reflexivity|].
    simpl in Hlen. rewrite sub_from_eq.
    pose proof (first_match_trailing pv (x :: s')) as F.
    unfold step. cbn [rest] in *. cbv zeta.
    destruct (first_match pat_trailing (mkCursor pv (x :: s'))) as [[pv' s1]|];
      cbn [option_map rest] in F.
    + destruct ((SP =? x) && spaces_to_eol s') eqn:E; [|discriminate].
      injection F as ->.
      apply andb_prop in E. destruct E as [_ E].
      cbn [rest length].
      replace (length (after_spaces s') <? S (length s'))%nat with true
        by (symmetry; apply Nat.ltb_lt;
            pose proof (after_spaces_length s'); lia).
      cbn [app].
      destruct (IH (after_spaces s') pv') as [IH1 IH2].
      { pose proof (after_spaces_length s'); lia. }
      split; [exact IH1|]. rewrite IH2.
      pose proof (after_spaces_eol s' E) as A.
      destruct (after_spaces s') as [|y t]; [now rewrite orb_true_r|].
      cbn [at_eol] in A. rewrite A. now rewrite orb_true_r.
    + destruct ((SP =? x) && spaces_to_eol s') eqn:E; [discriminate|].
      destruct (IH s' (Some x)) as [IH1 IH2]; [lia|].
      split.
      * cbn [no_space_at_eol]. rewrite IH1, andb_true_r, IH2.
        destruct (x =? SP) eqn:X; [|reflexivity].
        apply N.eqb_eq in X. subst x. cbn [andb negb] in *.
        rewrite N.eqb_refl in E. cbn [andb] in E.
        destruct s' as [|y s'']; [discriminate|].
        cbn [spaces_to_eol] in E.
        destruct (SP =? y) eqn:Y.
        -- apply N.eqb_eq in Y. subst y. rewrite E. reflexivity.
        -- rewrite E. reflexivity.
      * cbn [at_eol]. now rewrite orb_false_r.
Qed.

Lemma trailing_pass (s : str) :
  no_space_at_eol (sub pat_trailing [] s) = true.
Proof.
  rewrite sub_is_sub_from.
  exact (proj1 (trailing_pass_from (length s) s None (Nat.le_refl _))).
Qed.

(** ** [strip] *)

Lemma lstrip_split (s : str) :
  exists pre, s = pre ++ lstrip s /\ forallb isspace pre = true.
Proof.
  induction s as [|x s [pre [H1 H2]]].
  - exists []. split; reflexivity.
  - cbn [lstrip]. destruct (isspace x) eqn:E.
    + exists (x :: pre). split; [cbn; congruence|cbn; now rewrite E].
    + exists []. split; reflexivity.
Qed.

Lemma lstrip_head (s : str) :
  match lstrip s with
  | [] => True
  | x :: _ => isspace x = false
  end.
Proof.
  induction s as [|x s IH]; [exact I|].
  cbn [lstrip]. destruct (isspace x) eqn:E; [exact IH|exact E].
Qed.

Lemma rstrip_split (s : str) :
  exists post, s = rstrip s ++ post /\ forallb isspace post = true.
Proof.
  unfold rstrip. destruct (lstrip_split (rev s)) as [pre [H1 H2]].
  exists (rev pre). split.
  - rewrite <- rev_app_distr, <- H1. symmetry. apply rev_involutive.
  - rewrite forallb_forall in *. intros x Hx. apply H2.
    now apply in_rev in Hx.
Qed.

Lemma ends_with_snoc (c x : char) (l : str) :
  ends_with c (l ++ [x]) = (x =? c).
Proof.
  induction l as [|y l IH]; [reflexivity|].
  cbn [app ends_with]. destruct (l ++ [x]) eqn:E.
  - destruct l; discriminate.
  - exact IH.
Qed.

(** The text [rstrip] leaves does not end in white space. *)
Lemma rstrip_end (s : str) (c : char) :
  isspace c = true -> ends_with c (rstrip s) = false.
Proof.
  intros Hc. unfold rstrip. pose proof (lstrip_head (rev s)) as H.
  destruct (lstrip (rev s)) as [|x t]; [reflexivity|].
  cbn [rev]. rewrite ends_with_snoc.
  destruct (x =? c) eqn:E; [|reflexivity].
  apply N.eqb_eq in E. congruence.
Qed.

Lemma no_space_at_eol_suffix (pre s : str) :
  no_space_at_eol (pre ++ s) = true -> no_space_at_eol s = true.
Proof.
  induction pre as [|x pre IH]; [trivial|].
  cbn [app no_space_at_eol]. intros H.
  apply andb_prop in H. tauto.
Qed.

Lemma no_space_at_eol_prefix (s post : str) :
  no_space_at_eol (s ++ post) = true -> ends_with SP s = false ->
  no_space_at_eol s = true.
Proof.
  induction s as [|x s IH]; [trivial|].
  cbn [app no_space_at_eol ends_with]. intros H E.
  apply andb_prop in H. destruct H as [H1 H2].
  destruct s as [|y s].
  - cbn. unfold SP in *. rewrite E. reflexivity.
  - rewrite (IH H2 E), andb_true_r. exact H1.
Qed.

Lemma strip_no_space_at_eol (s : str) :
  no_space_at_eol s = true -> no_space_at_eol (strip s) = true.
Proof.
  intros H. unfold strip.
  destruct (lstrip_split s) as [pre [H1 _]].
  rewrite H1 in H. apply no_space_at_eol_suffix in H.
  destruct (rstrip_split (lstrip s)) as [post [H2 _]].
  rewrite H2 in H.
  apply (no_space_at_eol_prefix _ _ H). now apply rstrip_end.
Qed.

(** ** Lines *)

Lemma lines_not_nil (s : str) : lines s <> [].
Proof.
  induction s as [|x s IH]; [discriminate|].
  cbn [lines]. destruct (x =? NL); [discriminate|].
  destruct (lines s); discriminate.
Qed.

Lemma lines_head_nil (s : str) :
  hd [] (lines s) = [] <-> at_eol s = true.
Proof.
  destruct s as [|x s]; [cbn; tauto|].
  cbn [lines at_eol]. destruct (x =? NL); [cbn; tauto|].
  destruct (lines s); cbn; split; discriminate.
Qed.

Lemma no_space_at_eol_lines (s : str) :
  no_space_at_eol s = true ->
  forall l, In l (lines s) -> ends_with SP l = false.
Proof.
  induction s as [|x s IH]; intros H l Hin.
  - destruct Hin as [<-|[]]. reflexivity.
  - cbn [no_space_at_eol] in H. apply andb_prop in H. destruct H as [H1 H2].
    specialize (IH H2). cbn [lines] in Hin.
    destruct (x =? NL) eqn:X.
    + destruct Hin as [<-|Hin]; [reflexivity|now apply IH].
    + pose proof (lines_head_nil s) as Hd.
      destruct (lines s) as [|l0 ls] eqn:L; [now apply lines_not_nil in L|].
      destruct Hin as [<-|Hin]; [|apply IH; now right].
      cbn [ends_with]. destruct l0 as [|y l0].
      * cbn [hd] in Hd. rewrite (proj1 Hd eq_refl), andb_true_r in H1.
        now apply negb_true_iff in H1.
      * apply (IH (y :: l0)). now left.
Qed.

(** ** [clean_markdown]: the claims *)

(** What [clean_markdown] gives on the two inputs. *)
Example clean_markdown_text_tab :
  clean_markdown text_tab = lit "a" ++ [TAB; NL] ++ lit "b".
Proof. reflexivity. Qed.

Example clean_markdown_text_blank_lines :
  clean_markdown text_blank_lines = lit "a" ++ [NL; NL; NL] ++ lit "b"
  /\ has_newline_run3 (clean_markdown text_blank_lines) = true.
Proof. split; reflexivity. Qed.

(** C2, as the specification states it, fails: on ["a\t\nb"] the output has
    a line that ends in a tab. *)
Lemma C2_counterexample :
  ~ (has_newline_run3 (clean_markdown text_tab) = false
     /\ forall l, In l (lines (clean_markdown text_tab)) ->
                  ends_with SP l = false /\ ends_with TAB l = false).
Proof.
  intros [_ H]. specialize (H (lit "a" ++ [TAB])).
  assert (Hin : In (lit "a" ++ [TAB]) (lines (clean_markdown text_tab)))
    by (left; reflexivity).
  destruct (H Hin) as [_ Htab]. discriminate Htab.
Qed.

(** C2, amended. For every input, no line of the output of [clean_markdown]
    ends in a space, the lines being the parts between newline characters;
    and the output as a whole ends in no white space of any kind. *)
Theorem C2_clean_markdown_line_ends (x : str) :
  (forall l, In l (lines (clean_markdown x)) -> ends_with SP l = false)
  /\ (forall c, isspace c = true -> ends_with c (clean_markdown x) = false).
Proof.
  split.
  - apply no_space_at_eol_lines. unfold clean_markdown.
    apply strip_no_space_at_eol, trailing_pass.
  - intros c Hc. unfold clean_markdown, strip. now apply rstrip_end.
Qed.

(** C5 fails on the code: on ["a\n \n \nb"] the output keeps three newlines
    in a row, and a second application collapses them. *)
Theorem C5_clean_markdown_not_idempotent :
  clean_markdown text_blank_lines = lit "a" ++ [NL; NL; NL] ++ lit "b"
  /\ clean_markdown (clean_markdown text_blank_lines)
     = lit "a" ++ [NL; NL] ++ lit "b"
  /\ clean_markdown (clean_markdown text_blank_lines)
     <> clean_markdown text_blank_lines.
Proof. repeat split. discriminate. Qed.

(** ** The monad and its traces *)

Lemma extends_refl (p : event -> bool) (st : state) : extends p st st.
Proof. exists []. split; [now rewrite app_nil_r|reflexivity]. Qed.

Lemma extends_trans (p : event -> bool) (st1 st2 st3 : state) :
  extends p st1 st2 -> extends p st2 st3 -> extends p st1 st3.
Proof.
  intros [n1 [E1 F1]] [n2 [E2 F2]]. exists (n1 ++ n2). split.
  - now rewrite E2, E1, app_assoc.
  - now rewrite forallb_app, F1, F2.
Qed.

Lemma extends_weaken (p q : event -> bool) (st st' : state) :
  (forall e, p e = true -> q e = true) -> extends p st st' -> extends q st st'.
Proof.
  intros H [n [E F]]. exists n. split; [exact E|].
  rewrite forallb_forall in *. auto.
Qed.

Lemma emitted_app (st st' : state) (new : list event) :
  events st' = events st ++ new -> emitted st st' = new.
Proof.
  intros E. unfold emitted. rewrite E.
  rewrite skipn_app, skipn_all, Nat.sub_diag. reflexivity.
Qed.

Section Safe.

Variable p : event -> bool.

Lemma safe_ret {A : Type} (a : A) : safe p (ret a).
Proof. intros st. exists a, st. split; [reflexivity|apply extends_refl]. Qed.

Lemma safe_bind {A B : Type} (m : M A) (k : A -> M B) :
  safe p m -> (forall a, safe p (k a)) -> safe p (bind m k).
Proof.
  intros Hm Hk st. destruct (Hm st) as [a [st1 [E1 X1]]].
  destruct (Hk a st1) as [b [st2 [E2 X2]]].
  exists b, st2. split.
  - unfold bind. now rewrite E1.
  - eapply extends_trans; eassumption.
Qed.

Lemma safe_emit (e : event) : p e = true -> safe p (emit e).
Proof.
  intros He st. eexists tt, _. split; [reflexivity|].
  exists [e]. split; [reflexivity|]. cbn. now rewrite He.
Qed.

Lemma safe_file_write (text : str) : safe p (file_write text).
Proof.
  intros st. eexists tt, _. split; [reflexivity|].
  exists []. split; [cbn; now rewrite app_nil_r|reflexivity].
Qed.

Lemma safe_current_timestamp (w : world) : safe p (current_timestamp w).
Proof.
  intros st. eexists _, _. split; [reflexivity|].
  exists []. split; [cbn; now rewrite app_nil_r|reflexivity].
Qed.

Lemma safe_requests_get {A : Type} (resource : str -> A) (url auth : str) :
  p (EGet url auth) = true -> safe p (requests_get resource url auth).
Proof.
  intros H. unfold requests_get. apply safe_bind.
  - now apply safe_emit.
  - intros _. apply safe_ret.
Qed.

Lemma safe_for_each {A S : Type} (f : S -> A -> M S) (xs : list A) :
  (forall s x, safe p (f s x)) -> forall s, safe p (for_each xs s f).
Proof.
  intros Hf. induction xs as [|x xs IH]; intros s; cbn [for_each].
  - apply safe_ret.
  - apply safe_bind; [apply Hf|]. intros s'. apply IH.
Qed.

Lemma safe_with_open {A : Type} (filename : str) (block : M A) :
  (forall text, p (EWriteText filename text) = true) ->
  safe p block -> safe p (with_open filename block).
Proof.
  intros Hp Hb st.
  destruct (Hb (mkState (events st) (clock st) [])) as [a [st1 [E1 [n [E2 F]]]]].
  eexists a, _. split.
  - unfold with_open. rewrite E1. reflexivity.
  - exists (n ++ [EWriteText filename (file st1)]). split.
    + cbn [events] in *. now rewrite E2, app_assoc.
    + rewrite forallb_app, F. cbn. now rewrite Hp.
Qed.

End Safe.

Create HintDb safe.

#[local] Hint Resolve safe_ret safe_file_write safe_current_timestamp : safe.

(** ** The export part emits requests, files and notices only *)

Section ExportSafe.

Variable cfg : config.
Variable w : world.
Variable auth : str.

Lemma safe_download_attachment tl t a note :
  safe is_fetch (download_attachment cfg w auth tl t a note).
Proof.
  unfold download_attachment.
  destruct (SAVE_ATTACHMENTS cfg && str_eqb (odata_type a) FILE_ATTACHMENT);
    [|apply safe_ret].
  apply safe_bind; [now apply safe_requests_get|].
  intros r. destruct (content_status r =? 200)%Z; [|apply safe_ret].
  apply safe_bind; [now apply safe_emit|]. intros _. apply safe_file_write.
Qed.

Lemma safe_export_attachments md tl t :
  safe is_fetch (export_attachments cfg w auth md tl t).
Proof.
  unfold export_attachments.
  apply safe_bind; [now apply safe_requests_get|].
  intros r. destruct (get_value r) as [|a l]; [apply safe_ret|].
  apply safe_bind; [apply safe_file_write|]. intros _.
  apply safe_for_each. intros _ x.
  apply safe_bind; [apply safe_file_write|]. intros _.
  apply safe_download_attachment.
Qed.

Lemma safe_export_body_md t : safe is_fetch (export_body_md w t).
Proof.
  unfold export_body_md. destruct (body t) as [b|]; [|apply safe_ret].
  cbv zeta.
  destruct (truthy _ && truthy _); [|apply safe_ret].
  apply safe_bind; [apply safe_file_write|]. intros _.
  apply safe_bind; [|intros _; apply safe_file_write].
  destruct (str_eqb _ _); apply safe_file_write.
Qed.

Lemma safe_export_body_txt t : safe is_fetch (export_body_txt t).
Proof.
  unfold export_body_txt. destruct (body t); auto with safe.
Qed.

Lemma safe_export_task md tl first t :
  safe is_fetch (export_task cfg w auth md tl first t).
Proof.
  unfold export_task.
  apply safe_bind; [destruct (negb first); auto with safe|]. intros _.
  apply safe_bind; [apply safe_file_write|]. intros _.
  apply safe_bind; [apply safe_file_write|]. intros _.
  apply safe_bind; [destruct (dueDateTime t); auto with safe|]. intros _.
  apply safe_bind; [destruct (reminderDateTime t); auto with safe|]. intros _.
  apply safe_bind; [apply safe_export_attachments|]. intros _.
  apply safe_bind; [|intros _; apply safe_ret].
  destruct md; [apply safe_export_body_md|apply safe_export_body_txt].
Qed.

Lemma is_fetch_export (e : event) : is_fetch e = true -> is_export e = true.
Proof. destruct e; cbn; congruence. Qed.

Lemma safe_weaken {A : Type} (p q : event -> bool) (m : M A) :
  (forall e, p e = true -> q e = true) -> safe p m -> safe q m.
Proof.
  intros H Hm st. destruct (Hm st) as [a [st' [E X]]].
  exists a, st'. split; [exact E|]. eapply extends_weaken; eassumption.
Qed.

Lemma safe_export_list_md tl : safe is_export (export_list_md cfg w auth tl).
Proof.
  unfold export_list_md.
  apply safe_bind; [apply safe_current_timestamp|]. intros ts.
  apply safe_bind; [now apply safe_requests_get|]. intros r.
  destruct (get_value r) as [|t l]; [apply safe_ret|].
  apply safe_bind; [|intros _; now apply safe_emit].
  apply safe_with_open; [reflexivity|].
  apply safe_bind; [apply safe_file_write|]. intros _.
  apply safe_for_each. intros s x.
  apply (safe_weaken is_fetch); [apply is_fetch_export|apply safe_export_task].
Qed.

Lemma safe_export_list_txt tl : safe is_export (export_list_txt cfg w auth tl).
Proof.
  unfold export_list_txt.
  apply safe_bind; [now apply safe_requests_get|]. intros r.
  destruct (get_value r) as [|t l]; [apply safe_ret|].
  apply safe_bind; [apply safe_current_timestamp|]. intros ts.
  apply safe_bind; [|intros _; now apply safe_emit].
  apply safe_with_open; [reflexivity|].
  apply safe_bind; [apply safe_file_write|]. intros _.
  apply safe_for_each. intros s x.
  apply (safe_weaken is_fetch); [apply is_fetch_export|apply safe_export_task].
Qed.

End ExportSafe.

Lemma safe_export cfg w tok : safe is_export (export cfg w tok).
Proof.
  unfold export. apply safe_bind; [now apply safe_requests_get|]. intros r.
  destruct (SAVE_AS_MARKDOWN cfg); apply safe_for_each; intros _ tl.
  - apply safe_export_list_md.
  - apply safe_export_list_txt.
Qed.

(** ** Documents written by the export of one list *)

Lemma written_documents_app (a b : list event) :
  written_documents (a ++ b) = written_documents a ++ written_documents b.
Proof.
  induction a as [|e a IH]; [reflexivity|].
  destruct e; cbn; rewrite ?IH; reflexivity.
Qed.

Lemma written_documents_fetch (tr : list event) :
  forallb is_fetch tr = true -> written_documents tr = [].
Proof.
  induction tr as [|e tr IH]; [reflexivity|].
  cbn [forallb]. intros H. apply andb_prop in H. destruct H as [H1 H2].
  destruct e; try discriminate; cbn; auto.
Qed.

(** The monad's operations, one step at a time. *)

Lemma bind_ret {A B : Type} (a : A) (k : A -> M B) (st : state) :
  bind (ret a) k st = k a st.
Proof. reflexivity. Qed.

Lemma bind_emit {B : Type} (e : event) (k : unit -> M B) (st : state) :
  bind (emit e) k st = k tt (mkState (events st ++ [e]) (clock st) (file st)).
Proof. reflexivity. Qed.

Lemma bind_print {B : Type} (line : str) (k : unit -> M B) (st : state) :
  bind (print line) k st
  = k tt (mkState (events st ++ [EPrint line]) (clock st) (file st)).
Proof. reflexivity. Qed.

Lemma bind_file_write {B : Type} (text : str) (k : unit -> M B) (st : state) :
  bind (file_write text) k st
  = k tt (mkState (events st) (clock st) (file st ++ text)).
Proof. reflexivity. Qed.

Lemma bind_current_timestamp {B : Type} (w : world) (k : str -> M B)
    (st : state) :
  bind (current_timestamp w) k st
  = k (strftime (now w (clock st)))
      (mkState (events st) (S (clock st)) (file st)).
Proof. reflexivity. Qed.

Lemma bind_requests_get {A B : Type} (resource : str -> A) (url auth : str)
    (k : A -> M B) (st : state) :
  bind (requests_get resource url auth) k st
  = k (resource url)
      (mkState (events st ++ [EGet url auth]) (clock st) (file st)).
Proof. reflexivity. Qed.

Lemma bind_returns {A B : Type} (m : M A) (k : A -> M B) (st st' : state)
    (a : A) :
  m st = (Ret a, st') -> bind m k st = k a st'.
Proof. intros H. unfold bind. now rewrite H. Qed.

Lemma with_open_returns {A : Type} (filename : str) (block : M A)
    (st st1 : state) (a : A) :
  block (mkState (events st) (clock st) []) = (Ret a, st1) ->
  with_open filename block st
  = (Ret a, mkState (events st1 ++ [EWriteText filename (file st1)])
                    (clock st1) (file st)).
Proof. intros H. unfold with_open. now rewrite H. Qed.

Lemma bind_assoc {A B C : Type} (m : M A) (k1 : A -> M B) (k2 : B -> M C)
    (st : state) :
  bind (bind m k1) k2 st = bind m (fun a => bind (k1 a) k2) st.
Proof.
  unfold bind. destruct (m st) as [[a| |e] st']; reflexivity.
Qed.

Ltac mstep :=
  repeat first
    [ rewrite bind_assoc | rewrite bind_ret | rewrite bind_emit | rewrite bind_print
    | rewrite bind_file_write | rewrite bind_current_timestamp
    | rewrite bind_requests_get ];
  cbn [events clock file].

Section ExportList.

Variable cfg : config.
Variable w : world.
Variable auth : str.
Variable tl : todoTaskList.


(** The block under [with open(...)]: the heading and the loop over the
    tasks. *)
Lemma safe_document_block (md : bool) (heading : str) (tasks : list todoTask) :
  safe is_fetch
    (file_write heading;;
     for_each tasks true (export_task cfg w auth md tl)).
Proof.
  apply safe_bind; [apply safe_file_write|]. intros _.
  apply safe_for_each. intros s x. apply safe_export_task.
Qed.

Lemma export_list_md_empty (st : state) :
  get_value (get_tasks w (tasks_url tl)) = [] ->
  export_list_md cfg w auth tl st
  = (Ret tt, mkState (events st ++ [EGet (tasks_url tl) auth])
                     (S (clock st)) (file st)).
Proof.
  intros H. unfold export_list_md. mstep. rewrite H. reflexivity.
Qed.

Lemma export_list_txt_empty (st : state) :
  get_value (get_tasks w (tasks_url tl)) = [] ->
  export_list_txt cfg w auth tl st
  = (Ret tt, mkState (events st ++ [EGet (tasks_url tl) auth])
                     (clock st) (file st)).
Proof.
  intros H. unfold export_list_txt. mstep. rewrite H. reflexivity.
Qed.

Lemma export_list_md_nonempty (st : state) :
  get_value (get_tasks w (tasks_url tl)) <> [] ->
  exists inner doc clk,
    export_list_md cfg w auth tl st
    = (Ret tt,
       mkState (events st ++ EGet (tasks_url tl) auth :: inner
                ++ [EWriteText (document_name w tl st ".md") doc;
                    EPrint (exported_notice tl (document_name w tl st ".md"))])
               clk (file st))
    /\ forallb is_fetch inner = true.
Proof.
  intros H.
  destruct (get_value (get_tasks w (tasks_url tl))) as [|t l] eqn:E;
    [congruence|].
  pose proof (safe_document_block true
                (lit "# List: " ++ displayName tl ++ [NL; NL; NL]) (t :: l)
                (mkState (events st ++ [EGet (tasks_url tl) auth])
                         (S (clock st)) []))
    as [a [st1 [B [inner [E1 F]]]]].
  exists inner, (file st1), (clock st1). split; [|exact F].
  unfold export_list_md. mstep. rewrite E.
  erewrite bind_returns by (apply with_open_returns; exact B).
  unfold print, emit. cbn [events clock file] in *. rewrite E1.
  unfold document_name. rewrite <- !app_assoc. reflexivity.
Qed.

Lemma export_list_txt_nonempty (st : state) :
  get_value (get_tasks w (tasks_url tl)) <> [] ->
  exists inner doc clk,
    export_list_txt cfg w auth tl st
    = (Ret tt,
       mkState (events st ++ EGet (tasks_url tl) auth :: inner
                ++ [EWriteText (document_name w tl st ".txt") doc;
                    EPrint (exported_notice tl (document_name w tl st ".txt"))])
               clk (file st))
    /\ forallb is_fetch inner = true.
Proof.
  intros H.
  destruct (get_value (get_tasks w (tasks_url tl))) as [|t l] eqn:E;
    [congruence|].
  pose proof (safe_document_block false
                (lit "List: " ++ displayName tl ++ [NL; NL; NL]) (t :: l)
                (mkState (events st ++ [EGet (tasks_url tl) auth])
                         (S (clock st)) []))
    as [a [st1 [B [inner [E1 F]]]]].
  exists inner, (file st1), (clock st1). split; [|exact F].
  unfold export_list_txt. mstep. rewrite E. mstep.
  erewrite bind_returns by (apply with_open_returns; exact B).
  unfold print, emit. cbn [events clock file] in *. rewrite E1.
  unfold document_name. rewrite <- !app_assoc. reflexivity.
Qed.

End ExportList.

(** ** The timestamp of a file name *)

Lemma is_digit_digit (n : N) : is_digit (digit n) = true.
Proof.
  unfold is_digit, digit.
  assert (H : n mod 10 < 10) by (apply N.mod_upper_bound; discriminate).
  apply andb_true_intro. split; apply N.leb_le;
    set (m := n mod 10) in *; clearbody m; lia.
Qed.

Lemma strftime_is_timestamp (d : datetime) : is_timestamp (strftime d) = true.
Proof.
  unfold strftime, pad4, pad2. cbn [app is_timestamp forallb].
  rewrite !is_digit_digit. reflexivity.
Qed.

Example strftime_a_time : strftime a_time = lit "20240307_090500".
Proof. reflexivity. Qed.

(** C7. For a task list, in the markdown and in the plain-text variant: the
    export writes no document when the fetched tasks are none, and exactly
    one when there is a task, named by the sanitized display name, an
    underscore, the time of the clock as [YYYYMMDD_HHMMSS] and the
    extension [.md] or [.txt]; and the export of the list returns
    normally. *)
Theorem C7_one_document_per_nonempty_list
    (cfg : config) (w : world) (auth : str) (tl : todoTaskList) (st : state) :
  let tasks := get_value (get_tasks w (tasks_url tl)) in
  let stamp := strftime (now w (clock st)) in
  let name ext := sanitize_filename (displayName tl) ++ lit "_" ++ stamp
                  ++ lit ext in
  let md := export_list_md cfg w auth tl st in
  let txt := export_list_txt cfg w auth tl st in
  written_documents (emitted st (snd md))
    = match tasks with [] => [] | _ :: _ => [name ".md"%string] end
  /\ written_documents (emitted st (snd txt))
    = match tasks with [] => [] | _ :: _ => [name ".txt"%string] end
  /\ is_timestamp stamp = true
  /\ fst md = Ret tt /\ fst txt = Ret tt.
Proof.
  cbv zeta.
  destruct (get_value (get_tasks w (tasks_url tl))) as [|t l] eqn:E.
  - rewrite (export_list_md_empty cfg w auth tl st E).
    rewrite (export_list_txt_empty cfg w auth tl st E).
    cbn [fst snd].
    rewrite !(emitted_app _ _ [EGet (tasks_url tl) auth]) by reflexivity.
    repeat split. apply strftime_is_timestamp.
  - assert (N : get_value (get_tasks w (tasks_url tl)) <> [])
      by (rewrite E; discriminate).
    destruct (export_list_md_nonempty cfg w auth tl st N)
      as [i1 [d1 [c1 [M1 F1]]]].
    destruct (export_list_txt_nonempty cfg w auth tl st N)
      as [i2 [d2 [c2 [M2 F2]]]].
    rewrite M1, M2. cbn [fst snd].
    erewrite !emitted_app by reflexivity.
    cbn [written_documents]. rewrite !written_documents_app.
    rewrite (written_documents_fetch _ F1), (written_documents_fetch _ F2).
    repeat split. apply strftime_is_timestamp.
Qed.

(** ** Responses without a value *)





(** ** Attachments *)

Lemma str_eqb_eq (a b : str) : str_eqb a b = true <-> a = b.
Proof.
  revert b. induction a as [|x a IH]; destruct b as [|y b]; cbn;
    try (split; (discriminate || reflexivity)).
  rewrite andb_true_iff, N.eqb_eq, IH. split.
  - intros [-> ->]. reflexivity.
  - intros H. injection H as -> ->. now split.
Qed.


(** C8. The content of an attachment is requested only when
    [SAVE_ATTACHMENTS] is set and the attachment's [@odata.type] is the
    file-attachment tag; otherwise nothing happens.  When the response has
    status 200 its bytes are written to the file [attachment_] followed by
    the attachment's name, and the note with that file name is added to the
    document; with any other status the request is all that happened: no
    file, no note, no error. *)
Theorem C8_attachment_download
    (cfg : config) (w : world) (auth : str) (tl : todoTaskList)
    (t : todoTask) (a : attachment) (note : str) (st : state) :
  let url := content_url tl t a in
  let r := get_content w url in
  let name := lit "attachment_" ++ att_name a in
  (SAVE_ATTACHMENTS cfg = false \/ odata_type a <> FILE_ATTACHMENT ->
   download_attachment cfg w auth tl t a note st = (Ret tt, st))
  /\ (SAVE_ATTACHMENTS cfg = true -> odata_type a = FILE_ATTACHMENT ->
      content_status r = 200%Z ->
      download_attachment cfg w auth tl t a note st
      = (Ret tt,
         mkState (events st ++ [EGet url auth; EWriteBytes name (content_bytes r)])
                 (clock st) (file st ++ note ++ name ++ [NL])))
  /\ (SAVE_ATTACHMENTS cfg = true -> odata_type a = FILE_ATTACHMENT ->
      content_status r <> 200%Z ->
      download_attachment cfg w auth tl t a note st
      = (Ret tt, mkState (events st ++ [EGet url auth]) (clock st) (file st))).
Proof.
  cbv zeta. unfold download_attachment. fold (content_url tl t a).
  split; [|split].
  - intros [H|H].
    + rewrite H. reflexivity.
    + destruct (str_eqb (odata_type a) FILE_ATTACHMENT) eqn:E.
      * apply str_eqb_eq in E. contradiction.
      * rewrite andb_false_r. reflexivity.
  - intros H1 H2 H3. rewrite H1, (proj2 (str_eqb_eq _ _) H2). cbn [andb].
    mstep. rewrite H3. cbn [Z.eqb Pos.eqb]. mstep.
    unfold file_write. cbn [events clock file].
    rewrite <- !app_assoc. reflexivity.
  - intros H1 H2 H3. rewrite H1, (proj2 (str_eqb_eq _ _) H2). cbn [andb].
    mstep. apply Z.eqb_neq in H3. rewrite H3. reflexivity.
Qed.

Lemma C8_witness :
  download_attachment (mkConfig true true) w_cached (lit "Bearer TOK")
    groceries buy_milk receipt (lit "  - Saved attachment: ") init
  = (Ret tt,
     mkState [EGet (content_url groceries buy_milk receipt) (lit "Bearer TOK");
              EWriteBytes (lit "attachment_receipt.pdf") [1; 2; 3]]
             0 (lit "  - Saved attachment: attachment_receipt.pdf" ++ [NL]))
  /\ download_attachment (mkConfig true true) w_no_download (lit "Bearer TOK")
       groceries buy_milk receipt (lit "  - Saved attachment: ") init
     = (Ret tt,
        mkState [EGet (content_url groceries buy_milk receipt)
                      (lit "Bearer TOK")] 0 [])
  /\ download_attachment shipped w_cached (lit "Bearer TOK")
       groceries buy_milk receipt (lit "  - Saved attachment: ") init
     = (Ret tt, init).
Proof.
  split; [|split].
  - apply (proj1 (proj2 (C8_attachment_download (mkConfig true true) w_cached
              (lit "Bearer TOK") groceries buy_milk receipt
              (lit "  - Saved attachment: ") init))); reflexivity.
  - apply (proj2 (proj2 (C8_attachment_download (mkConfig true true)
              w_no_download (lit "Bearer TOK") groceries buy_milk receipt
              (lit "  - Saved attachment: ") init)));
      [reflexivity|reflexivity|discriminate].
  - apply (proj1 (C8_attachment_download shipped w_cached
              (lit "Bearer TOK") groceries buy_milk receipt
              (lit "  - Saved attachment: ") init)).
    left. reflexivity.
Defined.

(** ** Body content *)

Lemma lstrip_nil (s : str) : lstrip s = [] <-> blank s = true.
Proof.
  unfold blank. induction s as [|x s IH]; [cbn; tauto|].
  cbn [lstrip forallb]. destruct (isspace x); cbn [andb]; [exact IH|].
  split; discriminate.
Qed.

Lemma blank_rev (s : str) : blank (rev s) = blank s.
Proof.
  unfold blank. destruct (forallb isspace s) eqn:E.
  - rewrite forallb_forall in *. intros x Hx. apply E. now apply in_rev.
  - destruct (forallb isspace (rev s)) eqn:E'; [|reflexivity].
    rewrite forallb_forall in E'.
    assert (forallb isspace s = true); [|congruence].
    apply forallb_forall. intros x Hx. apply E'. now apply in_rev in Hx.
Qed.

Lemma strip_nil (s : str) : strip s = [] <-> blank s = true.
Proof.
  unfold strip, rstrip. split.
  - intros H. apply lstrip_nil.
    assert (R : lstrip (rev (lstrip s)) = []).
    { destruct (lstrip (rev (lstrip s))) as [|y k]; [reflexivity|].
      cbn [rev] in H. destruct (rev k); discriminate. }
    apply lstrip_nil in R. rewrite blank_rev in R.
    pose proof (lstrip_head s) as Hd.
    destruct (lstrip s) as [|x l]; [reflexivity|].
    cbn in R. rewrite Hd in R. discriminate.
  - intros H. apply lstrip_nil in H. rewrite H. reflexivity.
Qed.

(** The condition [markdown_content and markdown_content.strip()]. *)
Lemma content_condition (s : str) :
  truthy s && truthy (strip s) = negb (blank s).
Proof.
  destruct (blank s) eqn:B.
  - apply strip_nil in B. rewrite B. apply andb_false_r.
  - destruct (strip s) as [|x l] eqn:E.
    + apply strip_nil in E. congruence.
    + destruct s; [discriminate|reflexivity].
Qed.

Lemma state_file_grows (st : state) (o : outcome unit) (text : str) :
  text <> [] ->
  (o, mkState (events st) (clock st) (file st ++ text)) <> (Ret tt, st).
Proof.
  intros H E. injection E as _ E. apply (f_equal file) in E. cbn in E.
  apply (f_equal (@length _)) in E. rewrite length_app in E.
  destruct text; [congruence|]. cbn in E. lia.
Qed.

Lemma export_body_md_eq (w : world) (t : todoTask) (b : itemBody) (st : state) :
  body t = Some b ->
  export_body_md w t st
  = if blank (clean_markdown (handle w (content b))) then (Ret tt, st)
    else (Ret tt,
          mkState (events st) (clock st)
            (file st ++ lit "### Content:"
             ++ (if str_eqb (lower (contentType b)) (lit "html")
                 then clean_markdown (handle w (content b))
                 else content b)
             ++ [NL])).
Proof.
  intros Hb. unfold export_body_md. rewrite Hb. cbv zeta.
  rewrite content_condition.
  destruct (blank (clean_markdown (handle w (content b)))); [reflexivity|].
  cbn [negb]. mstep.
  destruct (str_eqb (lower (contentType b)) (lit "html")); mstep;
    unfold file_write; cbn [events clock file];
    rewrite <- !app_assoc; reflexivity.
Qed.

(** C3. For a task with a body.  In the markdown variant nothing is written
    for the body exactly when the converted and cleaned content is empty or
    white space only; otherwise, for a body whose content type is HTML, the
    text [### Content:], the converted and cleaned content and a newline are
    written.  In the plain-text variant the line [Content:] with the raw
    content is written whatever the content and its type. *)
Theorem C3_body_content
    (w : world) (t : todoTask) (b : itemBody) (st : state) :
  body t = Some b ->
  let markdown_content := clean_markdown (handle w (content b)) in
  (export_body_md w t st = (Ret tt, st) <-> blank markdown_content = true)
  /\ (blank markdown_content = false ->
      str_eqb (lower (contentType b)) (lit "html") = true ->
      export_body_md w t st
      = (Ret tt,
         mkState (events st) (clock st)
           (file st ++ lit "### Content:" ++ markdown_content ++ [NL])))
  /\ export_body_txt t st
     = (Ret tt,
        mkState (events st) (clock st)
          (file st ++ lit "  Content: " ++ content b ++ [NL])).
Proof.
  intros Hb. cbv zeta. rewrite (export_body_md_eq w t b st Hb).
  split; [|split].
  - destruct (blank (clean_markdown (handle w (content b)))).
    + tauto.
    + split; [|discriminate]. intros H. exfalso.
      revert H. apply state_file_grows. discriminate.
  - intros -> ->. reflexivity.
  - unfold export_body_txt. rewrite Hb. reflexivity.
Qed.


Lemma C3_witness :
  export_body_md w_cached html_blank init = (Ret tt, init)
  /\ export_body_md w_cached buy_milk init
     = (Ret tt, mkState [] 0 (lit "### Content:<b>2%</b>" ++ [NL]))
  /\ export_body_txt html_blank init
     = (Ret tt,
        mkState [] 0 (lit "  Content: __" ++ [NL] ++ lit " **  " ++ [NL])).
Proof.
  split; [|split].
  - apply (proj1 (C3_body_content w_cached html_blank
                    (mkBody (lit "html") (lit "__" ++ [NL] ++ lit " **  "))
                    init eq_refl)).
    reflexivity.
  - apply (proj1 (proj2 (C3_body_content w_cached buy_milk
                    (mkBody (lit "html") (lit "<b>2%</b>")) init eq_refl)));
      reflexivity.
  - apply (proj2 (proj2 (C3_body_content w_cached html_blank
                    (mkBody (lit "html") (lit "__" ++ [NL] ++ lit " **  "))
                    init eq_refl))).
Defined.

(** C10. In the markdown variant, for a task whose body has a content type
    other than HTML (in any letter case): when the converted and cleaned
    content is empty or white space only, nothing is written, whatever the
    raw content is; otherwise the text [### Content:], the raw content and
    a newline are written. *)
Theorem C10_non_html_body
    (w : world) (t : todoTask) (b : itemBody) (st : state) :
  body t = Some b ->
  str_eqb (lower (contentType b)) (lit "html") = false ->
  let markdown_content := clean_markdown (handle w (content b)) in
  (blank markdown_content = true -> export_body_md w t st = (Ret tt, st))
  /\ (blank markdown_content = false ->
      export_body_md w t st
      = (Ret tt,
         mkState (events st) (clock st)
           (file st ++ lit "### Content:" ++ content b ++ [NL]))).
Proof.
  intros Hb Ht. cbv zeta. rewrite (export_body_md_eq w t b st Hb), Ht.
  split; intros ->; reflexivity.
Qed.


Lemma C10_witness :
  (content (mkBody (lit "text") (lit "**")) <> []
   /\ export_body_md w_fresh marker_note init = (Ret tt, init))
  /\ export_body_md w_fresh plain_note init
     = (Ret tt,
        mkState [] 0
          (lit "### Content:call  " ++ [NL] ++ lit "back" ++ [NL])).
Proof.
  split; [split; [discriminate|]|].
  - apply (proj1 (C10_non_html_body w_fresh marker_note
                    (mkBody (lit "text") (lit "**")) init eq_refl eq_refl)).
    reflexivity.
  - apply (proj2 (C10_non_html_body w_fresh plain_note
                    (mkBody (lit "Text") (lit "call  " ++ [NL] ++ lit "back"))
                    init eq_refl eq_refl)).
    reflexivity.
Defined.

(** ** Authentication, path by path *)

Lemma get_or_create_cache_run (w : world) :
  get_or_create_cache w init = (Ret tt, mkState (cache_load_trace w) 0 []).
Proof.
  unfold cache_load_trace, get_or_create_cache.
  destruct (cache_file w); reflexivity.
Qed.

Lemma cache_load_trace_eq (w : world) :
  cache_load_trace w
  = match cache_file w with
    | Some _ => [ECacheExists true; ECacheRead]
    | None => [ECacheExists false]
    end.
Proof.
  unfold cache_load_trace, get_or_create_cache.
  destruct (cache_file w); reflexivity.
Qed.

Lemma dict_get_truthy (k v : str) (d : dict) :
  dict_get k d = Some v -> truthy_result (Some d) = true.
Proof. destruct d; [discriminate|reflexivity]. Qed.


Lemma interactive_run (w : world) (st : state) :
  interactive w st
  = match dict_get (lit "access_token") (acquire_token_interactive w) with
    | Some tok =>
        (Ret (Some (acquire_token_interactive w), Some tok),
         mkState (events st ++ [EAcquireInteractive]) (clock st) (file st))
    | None =>
        (Exit,
         mkState (events st ++ EAcquireInteractive
                  :: interactive_failure_notice w) (clock st) (file st))
    end.
Proof.
  unfold interactive. mstep. unfold dict_in, subscript.
  destruct (dict_get (lit "access_token") (acquire_token_interactive w)).
  - reflexivity.
  - mstep. unfold exit, interactive_failure_notice.
    rewrite <- !app_assoc. reflexivity.
Qed.

(** What is left of the authentication once a stage has given a result
    with a token: the cache is saved, the manual flow is skipped and the
    last check passes. *)
Lemma authenticate_tail (w : world) (d : dict) (tok : str) (st : state) :
  dict_get (lit "access_token") d = Some tok ->
  (save_cache w;;
   result <- (if negb (truthy_result (Some d)) then manual w
              else ret (Some d));;
   require_token result;;
   ret tok) st
  = (Ret tok,
     mkState (events st ++ [ECacheWrite (serialize w)]) (clock st) (file st)).
Proof.
  intros H. unfold save_cache. mstep.
  rewrite (dict_get_truthy _ _ _ H). cbn [negb]. mstep.
  unfold require_token, dict_in. rewrite H. cbn [negb]. mstep. reflexivity.
Qed.


(** Every run of the authentication follows one of the four paths. *)
Lemma authenticate_paths (w : world) :
  exists o tr,
    authenticate w init = (o, mkState (cache_load_trace w ++ tr) 0 [])
    /\ auth_path w o tr.
Proof.
  unfold authenticate.
  rewrite (bind_returns _ _ _ _ _ (get_or_create_cache_run w)).
  unfold acquire. mstep.
  destruct (get_accounts w) as [|a l] eqn:A.
  - (* no account *)
    mstep. unfold bind at 1. rewrite interactive_run. cbn [events clock file].
    destruct (dict_get (lit "access_token") (acquire_token_interactive w))
      as [tok|] eqn:T.
    + eexists _, _. split.
      * rewrite (authenticate_tail w _ tok _ T). cbn [events clock file].
        rewrite <- !app_assoc. reflexivity.
      * apply (InteractiveToken w [EGetAccounts; EPrint _] tok); [|exact T].
        left. split; [exact A|reflexivity].
    + eexists _, _. split.
      * rewrite <- !app_assoc. reflexivity.
      * apply (InteractiveFailure w [EGetAccounts; EPrint _]); [|exact T].
        left. split; [exact A|reflexivity].
  - mstep. destruct (truthy_result (acquire_token_silent w a)) eqn:S.
    + (* a token in the cache *)
      mstep. destruct (acquire_token_silent w a) as [d|] eqn:D;
        [|discriminate].
      unfold subscript.
      destruct (dict_get (lit "access_token") d) as [tok|] eqn:T.
      * mstep. eexists _, _. split.
        -- rewrite (authenticate_tail w _ tok _ T). cbn [events clock file].
           rewrite <- !app_assoc. reflexivity.
        -- eapply SilentToken; eassumption.
      * eexists _, _. split.
        -- unfold raise, bind. rewrite <- !app_assoc. reflexivity.
        -- eapply SilentKeyError; eassumption.
    + (* nothing in the cache *)
      mstep. unfold bind at 1. rewrite interactive_run.
      cbn [events clock file].
      destruct (dict_get (lit "access_token") (acquire_token_interactive w))
        as [tok|] eqn:T.
      * eexists _, _. split.
        -- rewrite (authenticate_tail w _ tok _ T). cbn [events clock file].
           rewrite <- !app_assoc. reflexivity.
        -- apply (InteractiveToken w [EGetAccounts; EAcquireSilent a; EPrint _]
                    tok); [|exact T].
           right. exists a, l. repeat split; (assumption || reflexivity).
      * eexists _, _. split.
        -- rewrite <- !app_assoc. reflexivity.
        -- apply (InteractiveFailure w
                    [EGetAccounts; EAcquireSilent a; EPrint _]); [|exact T].
           right. exists a, l. repeat split; (assumption || reflexivity).
Qed.

(** ** The whole run *)


(** A run is the cache load, one of the four paths of the authentication
    and, when that gave a token, the events of the export. *)
Lemma run_paths (cfg : config) (w : world) :
  exists o tr xs,
    auth_path w o tr
    /\ authenticate w init = (o, mkState (cache_load_trace w ++ tr) 0 [])
    /\ fst (run cfg w) = outcome_of_run o
    /\ trace cfg w = cache_load_trace w ++ tr ++ xs
    /\ forallb is_export xs = true
    /\ match o with Ret _ => True | _ => xs = [] end.
Proof.
  destruct (authenticate_paths w) as [o [tr [E P]]].
  unfold trace, run, main.
  destruct o as [tok| |e].
  - destruct (safe_export cfg w tok (mkState (cache_load_trace w ++ tr) 0 []))
      as [[] [st' [X [xs [E1 F]]]]].
    exists (Ret tok), tr, xs. repeat split; try assumption.
    + rewrite (bind_returns _ _ _ _ _ E), X. reflexivity.
    + rewrite (bind_returns _ _ _ _ _ E), X. cbn [snd events] in *.
      rewrite E1. now rewrite app_assoc.
  - exists Exit, tr, []. unfold bind. rewrite E. cbn [fst snd events].
    rewrite app_nil_r. repeat split; assumption.
  - exists (Raise e), tr, []. unfold bind. rewrite E. cbn [fst snd events].
    rewrite app_nil_r. repeat split; assumption.
Qed.

Lemma count_app (p : event -> bool) (a b : list event) :
  count p (a ++ b) = (count p a + count p b)%nat.
Proof. unfold count. now rewrite filter_app, length_app. Qed.

Lemma count_none (p q : event -> bool) (tr : list event) :
  (forall e, q e = true -> p e = false) ->
  forallb q tr = true -> count p tr = 0%nat.
Proof.
  intros H F. unfold count. induction tr as [|e tr IH]; [reflexivity|].
  cbn [forallb] in F. apply andb_prop in F. destruct F as [F1 F2].
  cbn [filter]. rewrite (H e F1). now apply IH.
Qed.

Lemma count_load (p : event -> bool) (w : world) :
  (forall e, is_cache_load e = true -> p e = false) ->
  count p (cache_load_trace w) = 0%nat.
Proof.
  intros H. apply (count_none p is_cache_load); [exact H|].
  rewrite cache_load_trace_eq. destruct (cache_file w); reflexivity.
Qed.

Lemma export_not_auth (e : event) :
  is_export e = true ->
  is_silent e = false /\ is_interactive e = false /\ is_manual e = false
  /\ is_cache_write e = false /\ is_cache_load e = false
  /\ is_acquire e = false.
Proof. destruct e; cbn; intros H; try discriminate; repeat split. Qed.

Lemma load_not_auth (e : event) :
  is_cache_load e = true ->
  is_silent e = false /\ is_interactive e = false /\ is_manual e = false
  /\ is_cache_write e = false /\ is_acquire e = false.
Proof. destruct e; cbn; intros H; try discriminate; repeat split. Qed.

(** The count of a kind of authentication event in a run is its count on
    the path of the authentication. *)
Lemma count_run (p : event -> bool) (w : world) (tr xs : list event) :
  (forall e, is_export e = true -> p e = false) ->
  (forall e, is_cache_load e = true -> p e = false) ->
  forallb is_export xs = true ->
  count p (cache_load_trace w ++ tr ++ xs) = count p tr.
Proof.
  intros H1 H2 F. rewrite !count_app, (count_load p w H2).
  rewrite (count_none p is_export xs H1 F). lia.
Qed.

Ltac auth_counts :=
  repeat match goal with
  | |- context [count ?p (cache_load_trace ?w ++ ?tr ++ ?xs)] =>
      rewrite (count_run p w tr xs)
        by (assumption || (intros ? ?HH; first
              [ apply export_not_auth in HH | apply load_not_auth in HH ];
              tauto))
  end.

Lemma count_path (w : world) (o : outcome str) (tr : list event) :
  auth_path w o tr ->
  (count is_silent tr <= 1)%nat
  /\ (count is_interactive tr <= 1)%nat
  /\ count is_manual tr = 0%nat
  /\ count is_cache_write tr
     = match o with Ret _ => 1%nat | _ => 0%nat end.
Proof.
  intros P. destruct P as [a l d tok A S T G|a l d A S T G|pre tok S G|pre S G];
    try (cbn; repeat split; lia);
    destruct S as [[_ ->]|[a [l [_ [_ ->]]]]]; cbn; repeat split; lia.
Qed.

Lemma in_run_path (e : event) (w : world) (tr xs : list event) :
  is_export e = false -> is_cache_load e = false ->
  forallb is_export xs = true ->
  In e (cache_load_trace w ++ tr ++ xs) -> In e tr.
Proof.
  intros H1 H2 F H. rewrite !in_app_iff in H. destruct H as [H|[H|H]].
  - rewrite cache_load_trace_eq in H.
    destruct (cache_file w); cbn in H; intuition (subst; discriminate).
  - exact H.
  - rewrite forallb_forall in F. apply F in H. congruence.
Qed.

Lemma prelude_no_interactive (w : world) (pre : list event) :
  silent_prelude w pre -> ~ In EAcquireInteractive pre.
Proof.
  intros [[_ ->]|[a [l [_ [_ ->]]]]] H; cbn in H; intuition discriminate.
Qed.

Example run_denied :
  run shipped w_denied
  = (Exit,
     mkState [ECacheExists false; EGetAccounts;
              EPrint (lit "No accounts found. Acquiring new token...");
              EAcquireInteractive; EPrint (lit "access_denied");
              EPrint (lit "The user denied the request")] 0 []).
Proof. reflexivity. Qed.

(** C1, as the specification states it, fails: when the interactive sign-in
    is refused, the run prints the error and ends; no authorization URL is
    shown and no redirect URL is asked for. *)
Lemma C1_counterexample : ~ manual_fallback_entered shipped w_denied.
Proof.
  unfold manual_fallback_entered, trace. rewrite run_denied. cbn [snd events].
  intros H.
  assert (In EInitiateFlow
            [ECacheExists false; EGetAccounts;
             EPrint (lit "No accounts found. Acquiring new token...");
             EAcquireInteractive; EPrint (lit "access_denied");
             EPrint (lit "The user denied the request")]) as F.
  { apply H; [|reflexivity]. cbn. tauto. }
  cbn in F. intuition discriminate.
Qed.

(** C1, amended. In every run: the silent and the interactive acquisition
    are each attempted at most once and the manual flow never; when the
    silent acquisition gives a result, the interactive one is not
    attempted; and when the interactive acquisition is attempted and its
    result has no token, the run ends there, after printing the provider's
    error and its description. *)
Theorem C1_cascade (cfg : config) (w : world) :
  (count is_silent (trace cfg w) <= 1)%nat
  /\ (count is_interactive (trace cfg w) <= 1)%nat
  /\ count is_manual (trace cfg w) = 0%nat
  /\ (forall a l,
        get_accounts w = a :: l ->
        truthy_result (acquire_token_silent w a) = true ->
        count is_interactive (trace cfg w) = 0%nat)
  /\ (In EAcquireInteractive (trace cfg w) ->
      dict_in (lit "access_token") (acquire_token_interactive w) = false ->
      fst (run cfg w) = Exit
      /\ exists pre,
           trace cfg w
           = pre ++ EAcquireInteractive :: interactive_failure_notice w).
Proof.
  destruct (run_paths cfg w) as [o [tr [xs [P [_ [O [T [F X]]]]]]]].
  rewrite T, O. auth_counts.
  destruct (count_path w o tr P) as [C1 [C2 [C3 _]]].
  split; [exact C1|]. split; [exact C2|]. split; [exact C3|]. split.
  - intros a l A S.
    destruct P as [a' l' d tok A' _ _ _|a' l' d A' _ _ _|pre tok S' _|pre S' _];
      try reflexivity;
      destruct S' as [[A' _]|[a' [l' [A' [S' _]]]]]; try congruence;
      rewrite A in A'; injection A' as <- <-; congruence.
  - intros I D. apply in_run_path in I; [|reflexivity|reflexivity|exact F].
    unfold dict_in in D.
    destruct P as [a l d tok _ _ _ _|a l d _ _ _ _|pre tok S G|pre S G].
    + cbn in I. intuition discriminate.
    + cbn in I. intuition discriminate.
    + rewrite G in D. discriminate.
    + split; [reflexivity|]. exists (cache_load_trace w ++ pre).
      rewrite X, app_nil_r, <- app_assoc. reflexivity.
Qed.

Lemma C1_witness :
  count is_interactive (trace shipped w_cached) = 0%nat
  /\ (fst (run shipped w_denied) = Exit
      /\ exists pre,
           trace shipped w_denied
           = pre ++ EAcquireInteractive :: interactive_failure_notice w_denied).
Proof.
  split.
  - apply (proj1 (proj2 (proj2 (proj2 (C1_cascade shipped w_cached))))
             (lit "user") []); reflexivity.
  - apply (proj2 (proj2 (proj2 (proj2 (C1_cascade shipped w_denied)))));
      [|reflexivity].
    unfold trace. rewrite run_denied. cbn. tauto.
Defined.

Lemma path_no_load (w : world) (o : outcome str) (tr : list event) :
  auth_path w o tr -> count is_cache_load tr = 0%nat.
Proof.
  intros P. destruct P as [a l d tok A S T G|a l d A S T G|pre tok S G|pre S G];
    try reflexivity;
    destruct S as [[_ ->]|[a [l [_ [_ ->]]]]]; reflexivity.
Qed.

(** On a path that gave a token, the cache write is the last event and an
    acquisition comes before it. *)
Lemma path_write_last (w : world) (tok : str) (tr : list event) :
  auth_path w (Ret tok) tr ->
  exists pre,
    tr = pre ++ [ECacheWrite (serialize w)]
    /\ (1 <= count is_acquire pre)%nat.
Proof.
  intros P. inversion P as [a l d tok' A S T G|a l d A S T G|pre tok' S G|pre S G];
    subst.
  - exists [EGetAccounts; EAcquireSilent a; EPrint (lit "Token found in cache")].
    split; [reflexivity|]. cbn. lia.
  - exists (pre ++ [EAcquireInteractive]). split.
    + now rewrite <- app_assoc.
    + rewrite count_app. cbn. lia.
Qed.

(** C6. In every run: the events of the cache load come first, before any
    acquisition of a token, and the cache is not read again; the cache is
    written at most once; when the authentication gives a token, by the
    silent or by the interactive acquisition, the cache is written exactly
    once, after the acquisition and before anything else; and when the
    authentication gives no token, the cache is not written and the run does
    not end normally. *)
Theorem C6_cache_discipline (cfg : config) (w : world) :
  (exists rest,
     trace cfg w = cache_load_trace w ++ rest
     /\ cache_load_trace w <> []
     /\ count is_acquire (cache_load_trace w) = 0%nat
     /\ count is_cache_load rest = 0%nat)
  /\ (count is_cache_write (trace cfg w) <= 1)%nat
  /\ ((exists tok, fst (authenticate w init) = Ret tok) ->
      count is_cache_write (trace cfg w) = 1%nat
      /\ exists pre post,
           trace cfg w = pre ++ ECacheWrite (serialize w) :: post
           /\ (1 <= count is_acquire pre)%nat
           /\ count is_acquire post = 0%nat)
  /\ ((forall tok, fst (authenticate w init) <> Ret tok) ->
      count is_cache_write (trace cfg w) = 0%nat
      /\ fst (run cfg w) <> Ret tt).
Proof.
  destruct (run_paths cfg w) as [o [tr [xs [P [E [O [T [F X]]]]]]]].
  rewrite T, O, E. cbn [fst]. auth_counts.
  destruct (count_path w o tr P) as [_ [_ [_ C]]].
  split; [|split; [|split]].
  - exists (tr ++ xs). split; [reflexivity|]. split.
    + rewrite cache_load_trace_eq. destruct (cache_file w); discriminate.
    + split.
      * apply count_load. intros e H. now apply load_not_auth in H.
      * rewrite count_app, (path_no_load w o tr P).
        apply (count_none is_cache_load is_export); [|exact F].
        intros e H. now apply export_not_auth in H.
  - rewrite C. destruct o; lia.
  - intros [tok H]. subst o. split; [exact C|].
    destruct (path_write_last w tok tr P) as [pre [-> A]].
    exists (cache_load_trace w ++ pre), xs. split.
    + now rewrite <- !app_assoc.
    + split.
      * rewrite count_app. lia.
      * apply (count_none is_acquire is_export); [|exact F].
        intros e H. now apply export_not_auth in H.
  - intros H. rewrite C. destruct o as [tok| |e].
    + now contradiction (H tok).
    + split; [reflexivity|discriminate].
    + split; [reflexivity|discriminate].
Qed.

Example authenticate_cached :
  fst (authenticate w_cached init) = Ret (lit "TOK").
Proof. reflexivity. Qed.

Example authenticate_fresh :
  fst (authenticate w_fresh init) = Ret (lit "TOK").
Proof. reflexivity. Qed.

Example authenticate_denied : fst (authenticate w_denied init) = Exit.
Proof. reflexivity. Qed.

Lemma C6_witness :
  (count is_cache_write (trace shipped w_cached) = 1%nat
   /\ count is_cache_write (trace shipped w_fresh) = 1%nat)
  /\ (count is_cache_write (trace shipped w_denied) = 0%nat
      /\ fst (run shipped w_denied) <> Ret tt).
Proof.
  split; [split|].
  - apply (proj1 (proj1 (proj2 (proj2 (C6_cache_discipline shipped w_cached)))
                    (ex_intro _ (lit "TOK") authenticate_cached))).
  - apply (proj1 (proj1 (proj2 (proj2 (C6_cache_discipline shipped w_fresh)))
                    (ex_intro _ (lit "TOK") authenticate_fresh))).
  - apply (proj2 (proj2 (proj2 (C6_cache_discipline shipped w_denied)))).
    intros tok. rewrite authenticate_denied. discriminate.
Defined.

(** * Further properties *)

(** ** [clean_markdown] only deletes *)

Lemma subseq_refl (a : str) : subseq a a.
Proof. induction a; constructor; assumption. Qed.

Lemma subseq_nil_l (b : str) : subseq [] b.
Proof. induction b; constructor; assumption. Qed.

Lemma subseq_trans (a b c : str) : subseq a b -> subseq b c -> subseq a c.
Proof.
  intros H1 H2. revert a H1.
  induction H2 as [|x b c H2 IH|x b c H2 IH]; intros a H1.
  - exact H1.
  - apply subseq_skip. now apply IH.
  - inversion H1; subst.
    + apply subseq_skip. now apply IH.
    + apply subseq_keep. now apply IH.
Qed.

Lemma subseq_app (a1 b1 a2 b2 : str) :
  subseq a1 b1 -> subseq a2 b2 -> subseq (a1 ++ a2) (b1 ++ b2).
Proof.
  intros H1 H2. induction H1; cbn [app]; try constructor; assumption.
Qed.

Lemma subseq_suffix (pre b : str) : subseq b (pre ++ b).
Proof.
  induction pre; cbn [app]; [apply subseq_refl|now apply subseq_skip].
Qed.

Lemma subseq_prefix (a post : str) : subseq a (a ++ post).
Proof.
  rewrite <- (app_nil_r a) at 1.
  apply subseq_app; [apply subseq_refl|apply subseq_nil_l].
Qed.

Lemma subseq_length (a b : str) : subseq a b -> (length a <= length b)%nat.
Proof. induction 1; cbn [length]; lia. Qed.

Lemma subseq_In (a b : str) (x : char) : subseq a b -> In x a -> In x b.
Proof.
  induction 1 as [|y a b H IH|y a b H IH]; cbn [In]; intros Hin.
  - exact Hin.
  - right. now apply IH.
  - destruct Hin as [->|Hin]; [now left|right; now apply IH].
Qed.

(** What the matcher consumes is a prefix of the text at the position. *)
Lemma greedy_consumes (p : char -> bool) (s : str) :
  forall (min : nat) (pv : option char) (c' : cursor),
    In c' (greedy p min pv s) ->
    exists pre, s = pre ++ rest c' /\ forallb p pre = true
                /\ (min <= length pre)%nat.
Proof.
  induction s as [|x s IH]; intros min pv c' H; cbn [greedy] in H.
  - destruct min; cbn in H; [|contradiction].
    destruct H as [<-|[]]. exists []. repeat split. cbn. lia.
  - apply in_app_iff in H. destruct H as [H|H].
    + destruct (p x) eqn:E; [|contradiction].
      destruct (IH _ _ _ H) as [pre [E1 [E2 E3]]].
      exists (x :: pre). cbn [app forallb length]. rewrite E, E2.
      repeat split; [congruence|lia].
    + destruct min; cbn in H; [|contradiction].
      destruct H as [<-|[]]. exists []. repeat split. cbn. lia.
Qed.

Lemma rmatch_consumes (r : regex) :
  forall (c c' : cursor),
    In c' (rmatch r c) -> exists pre, rest c = pre ++ rest c'.
Proof.
  induction r as [a|p| | |r1 IH1 r2 IH2|r1 IH1 r2 IH2|min p];
    intros c c' H; cbn [rmatch] in H.
  - destruct (rest c) as [|x s] eqn:E; [contradiction|].
    destruct (x =? a); [|contradiction]. destruct H as [<-|[]].
    exists [x]. reflexivity.
  - destruct (rest c) as [|x s] eqn:E; [contradiction|].
    destruct (p x); [|contradiction]. destruct H as [<-|[]].
    exists [x]. reflexivity.
  - assert (c' = c) as ->
      by (destruct (prev c) as [x|]; [destruct (x =? NL)|];
          cbn in H; intuition).
    exists []. reflexivity.
  - assert (c' = c) as ->
      by (destruct (rest c) as [|x s]; [|destruct (x =? NL)];
          cbn in H; intuition).
    exists []. reflexivity.
  - apply in_flat_map in H. destruct H as [c1 [H1 H2]].
    destruct (IH1 _ _ H1) as [p1 E1]. destruct (IH2 _ _ H2) as [p2 E2].
    exists (p1 ++ p2). rewrite E1, E2. now rewrite app_assoc.
  - apply in_app_iff in H. destruct H as [H|H]; eauto.
  - destruct (greedy_consumes _ _ _ _ _ H) as [pre [E _]]. now exists pre.
Qed.

Lemma first_match_In (r : regex) (c c' : cursor) :
  first_match r c = Some c' -> In c' (rmatch r c).
Proof.
  unfold first_match. destruct (rmatch r c); [discriminate|].
  cbn. intros [= ->]. now left.
Qed.

Lemma first_advance_In (r : regex) (c c' : cursor) :
  first_advance r c = Some c' -> In c' (rmatch r c).
Proof. intros H. now apply find_some in H. Qed.

(** A pass that replaces every match by a text that is among the
    characters it consumes, in their order, only deletes. *)
Lemma sub_from_subseq (r : regex) (repl : str) :
  (forall c c', In c' (rmatch r c) ->
     exists pre, rest c = pre ++ rest c' /\ subseq repl pre
                 /\ (repl = [] \/ pre <> [])) ->
  forall (n : nat) (c : cursor),
    (length (rest c) <= n)%nat -> subseq (sub_from r repl c) (rest c).
Proof.
  intros Hr. induction n as [|n IH]; intros c Hn.
  - rewrite sub_from_eq. unfold step.
    destruct (rest c) as [|x s] eqn:E; [|cbn in Hn; lia].
    cbv zeta.
    destruct (first_match r c) as [c'|] eqn:F; [|constructor].
    apply first_match_In in F. destruct (Hr _ _ F) as [pre [E1 [S1 D]]].
    rewrite E in E1. destruct pre; [|discriminate]. cbn [app] in E1.
    rewrite <- E1. cbn [length]. rewrite Nat.ltb_irrefl.
    inversion S1; subst.
    destruct (first_advance r c) as [c2|] eqn:A; [|constructor].
    apply find_some in A. destruct A as [_ A]. apply Nat.ltb_lt in A.
    rewrite E in A. cbn in A. lia.
  - rewrite sub_from_eq. cbv zeta.
    assert (Copy :
      subseq match step c with
             | None => []
             | Some (x, c1) => x :: sub_from r repl c1
             end (rest c)).
    { unfold step. destruct (rest c) as [|x s] eqn:E; [constructor|].
      apply subseq_keep. apply (IH (mkCursor (Some x) s)).
      cbn [rest length] in *. lia. }
    assert (Jump : forall c2,
      In c2 (rmatch r c) -> (length (rest c2) < length (rest c))%nat ->
      subseq (repl ++ sub_from r repl c2) (rest c)).
    { intros c2 H2 L. destruct (Hr _ _ H2) as [pre [E1 [S1 _]]].
      rewrite E1. apply subseq_app; [exact S1|]. apply IH. lia. }
    destruct (first_match r c) as [c'|] eqn:F; [|exact Copy].
    apply first_match_In in F.
    destruct (length (rest c') <? length (rest c))%nat eqn:L.
    + apply Nat.ltb_lt in L. now apply Jump.
    + destruct (Hr _ _ F) as [pre [E1 [S1 D]]].
      assert (pre = []) as ->.
      { apply Nat.ltb_ge in L. rewrite E1, length_app in L.
        destruct pre; [reflexivity|cbn in L; lia]. }
      destruct D as [->|D]; [|congruence]. cbn [app].
      destruct (first_advance r c) as [c2|] eqn:A; [|exact Copy].
      pose proof (first_advance_In _ _ _ A) as H2.
      apply find_some in A. destruct A as [_ A]. apply Nat.ltb_lt in A.
      now apply (Jump c2).
Qed.

Lemma sub_delete_subseq (r : regex) (s : str) : subseq (sub r [] s) s.
Proof.
  rewrite sub_is_sub_from.
  apply (sub_from_subseq r [] ) with (n := length s) (c := start s);
    [|reflexivity].
  intros c c' H. destruct (rmatch_consumes _ _ _ H) as [pre E].
  exists pre. split; [exact E|]. split; [apply subseq_nil_l|now left].
Qed.

Lemma sub_newlines_subseq (s : str) : subseq (sub pat_newlines [NL; NL] s) s.
Proof.
  rewrite sub_is_sub_from.
  apply (sub_from_subseq pat_newlines [NL; NL])
    with (n := length s) (c := start s); [|reflexivity].
  intros c c' H. unfold pat_newlines in H. cbn [rmatch] in H.
  destruct (greedy_consumes _ _ _ _ _ H) as [pre [E [F L]]].
  exists pre. split; [exact E|].
  destruct pre as [|x [|y pre]]; try (cbn in L; lia).
  cbn [forallb] in F. apply andb_prop in F. destruct F as [X F].
  apply andb_prop in F. destruct F as [Y _].
  apply N.eqb_eq in X, Y. subst x y.
  split; [|right; discriminate].
  apply subseq_keep, subseq_keep, subseq_nil_l.
Qed.

Lemma lstrip_subseq (s : str) : subseq (lstrip s) s.
Proof.
  destruct (lstrip_split s) as [pre [E _]]. rewrite E at 2.
  apply subseq_suffix.
Qed.

Lemma rstrip_subseq (s : str) : subseq (rstrip s) s.
Proof.
  destruct (rstrip_split s) as [post [E _]]. rewrite E at 2.
  apply subseq_prefix.
Qed.

Lemma clean_markdown_subseq (x : str) : subseq (clean_markdown x) x.
Proof.
  unfold clean_markdown, strip.
  eapply subseq_trans; [apply rstrip_subseq|].
  eapply subseq_trans; [apply lstrip_subseq|].
  eapply subseq_trans; [apply sub_delete_subseq|].
  eapply subseq_trans; [apply sub_newlines_subseq|].
  eapply subseq_trans; [apply sub_delete_subseq|].
  eapply subseq_trans; [apply sub_delete_subseq|].
  apply sub_delete_subseq.
Qed.

(** X1. The output of [clean_markdown] is its input with some characters
    deleted: nothing is added, changed or moved.  So the output is no longer
    than the input and every character of it is one of the input. *)
Theorem clean_markdown_only_deletes (x : str) :
  subseq (clean_markdown x) x
  /\ (length (clean_markdown x) <= length x)%nat
  /\ (forall c, In c (clean_markdown x) -> In c x).
Proof.
  pose proof (clean_markdown_subseq x) as H.
  split; [exact H|]. split; [now apply subseq_length|].
  intros c. now apply subseq_In.
Qed.

(** ** [clean_markdown] gives stripped text *)

Lemma lstrip_id (s : str) :
  match s with [] => True | x :: _ => isspace x = false end -> lstrip s = s.
Proof. destruct s as [|x s]; [reflexivity|]. cbn. now intros ->. Qed.

Lemma lstrip_lstrip (s : str) : lstrip (lstrip s) = lstrip s.
Proof. apply lstrip_id, lstrip_head. Qed.

Lemma rstrip_rstrip (s : str) : rstrip (rstrip s) = rstrip s.
Proof. unfold rstrip. now rewrite rev_involutive, lstrip_lstrip. Qed.

Lemma strip_head (s : str) :
  match strip s with [] => True | x :: _ => isspace x = false end.
Proof.
  unfold strip. pose proof (lstrip_head s) as H.
  destruct (rstrip_split (lstrip s)) as [post [E _]].
  destruct (rstrip (lstrip s)) as [|y t]; [exact I|].
  rewrite E in H. exact H.
Qed.

Lemma strip_strip (s : str) : strip (strip s) = strip s.
Proof.
  unfold strip at 1. rewrite (lstrip_id _ (strip_head s)).
  unfold strip. apply rstrip_rstrip.
Qed.

Lemma clean_markdown_strip (x : str) :
  strip (clean_markdown x) = clean_markdown x.
Proof. unfold clean_markdown. apply strip_strip. Qed.

(** X2. The output of [clean_markdown] is stripped already: stripping it
    again changes nothing, it does not begin with white space, and it is
    white space only just when it is empty.  The second half of the
    exporter's test [markdown_content and markdown_content.strip()] thus
    never decides: the test is that of [markdown_content] alone. *)
Theorem clean_markdown_is_stripped (x : str) :
  strip (clean_markdown x) = clean_markdown x
  /\ match clean_markdown x with [] => True | c :: _ => isspace c = false end
  /\ (blank (clean_markdown x) = true <-> clean_markdown x = [])
  /\ truthy (clean_markdown x) && truthy (strip (clean_markdown x))
     = truthy (clean_markdown x).
Proof.
  pose proof (clean_markdown_strip x) as S.
  split; [exact S|]. split; [unfold clean_markdown; apply strip_head|].
  split.
  - rewrite <- strip_nil, S. tauto.
  - rewrite S. now destruct (clean_markdown x).
Qed.

(** X3. On an input of white space only, the empty input among them,
    [clean_markdown] gives the empty text. *)
Theorem clean_markdown_blank (x : str) :
  blank x = true -> clean_markdown x = [].
Proof.
  intros B. rewrite <- clean_markdown_strip. apply strip_nil.
  unfold blank in *. rewrite forallb_forall in *. intros c H.
  apply B. exact (subseq_In _ _ c (clean_markdown_subseq x) H).
Qed.

Lemma clean_markdown_blank_witness :
  blank text_only_space = true /\ clean_markdown text_only_space = [].
Proof.
  split; [reflexivity|]. apply (clean_markdown_blank text_only_space).
  reflexivity.
Defined.

(** ** [sanitize_filename], again *)

Lemma is_invalid_underscore : is_invalid UNDERSCORE = false.
Proof. reflexivity. Qed.

(** X4. Sanitizing a sanitized name changes nothing. *)
Theorem sanitize_filename_idempotent (filename : str) :
  sanitize_filename (sanitize_filename filename) = sanitize_filename filename.
Proof.
  rewrite !sanitize_filename_map, map_map. apply map_ext. intros c.
  destruct (is_invalid c) eqn:E; [|now rewrite E].
  now rewrite is_invalid_underscore.
Qed.

(** X5. [sanitize_filename] leaves a name as it is exactly when the name
    has none of the nine characters. *)
Theorem sanitize_filename_fixed (filename : str) :
  sanitize_filename filename = filename
  <-> (forall c, In c filename -> ~ In c invalid_chars).
Proof.
  rewrite sanitize_filename_map. split.
  - intros H c Hin Hbad. apply is_invalid_In in Hbad.
    induction filename as [|x s IH]; [contradiction|].
    cbn [map] in H. injection H as H1 H2. destruct Hin as [->|Hin].
    + rewrite Hbad in H1. subst c. discriminate.
    + now apply IH.
  - intros H. induction filename as [|x s IH]; [reflexivity|].
    cbn [map]. rewrite IH by (intros c Hc; apply H; now right).
    destruct (is_invalid x) eqn:E; [|reflexivity].
    apply is_invalid_In in E. exfalso. apply (H x); [now left|exact E].
Qed.


(** ** The export, for any kind of event it may emit *)

Section ExportEmits.

Variable cfg : config.
Variable w : world.
Variable auth : str.
Variable p : event -> bool.

Hypothesis p_get : forall url, p (EGet url auth) = true.
Hypothesis p_bytes :
  SAVE_ATTACHMENTS cfg = true -> forall f d, p (EWriteBytes f d) = true.
Hypothesis p_text : forall f t, p (EWriteText f t) = true.
Hypothesis p_print : forall l, p (EPrint l) = true.

Lemma emits_download_attachment tl t a note :
  safe p (download_attachment cfg w auth tl t a note).
Proof.
  unfold download_attachment.
  destruct (SAVE_ATTACHMENTS cfg) eqn:S; [|apply safe_ret].
  destruct (str_eqb (odata_type a) FILE_ATTACHMENT); [|apply safe_ret].
  cbn [andb]. apply safe_bind; [apply safe_requests_get, p_get|].
  intros r. destruct (content_status r =? 200)%Z; [|apply safe_ret].
  apply safe_bind; [apply safe_emit; now apply p_bytes|].
  intros _. apply safe_file_write.
Qed.

Lemma emits_export_attachments md tl t :
  safe p (export_attachments cfg w auth md tl t).
Proof.
  unfold export_attachments.
  apply safe_bind; [apply safe_requests_get, p_get|].
  intros r. destruct (get_value r) as [|a l]; [apply safe_ret|].
  apply safe_bind; [apply safe_file_write|]. intros _.
  apply safe_for_each. intros _ x.
  apply safe_bind; [apply safe_file_write|]. intros _.
  apply emits_download_attachment.
Qed.

Lemma emits_export_body (md : bool) t :
  safe p (if md then export_body_md w t else export_body_txt t).
Proof.
  destruct md.
  - unfold export_body_md. destruct (body t) as [b|]; [|apply safe_ret].
    cbv zeta. destruct (truthy _ && truthy _); [|apply safe_ret].
    apply safe_bind; [apply safe_file_write|]. intros _.
    apply safe_bind; [|intros _; apply safe_file_write].
    destruct (str_eqb _ _); apply safe_file_write.
  - unfold export_body_txt. destruct (body t);
      [apply safe_file_write|apply safe_ret].
Qed.

Lemma emits_export_task md tl first t :
  safe p (export_task cfg w auth md tl first t).
Proof.
  unfold export_task.
  apply safe_bind;
    [destruct (negb first); [apply safe_file_write|apply safe_ret]|].
  intros _.
  apply safe_bind; [apply safe_file_write|]. intros _.
  apply safe_bind; [apply safe_file_write|]. intros _.
  apply safe_bind;
    [destruct (dueDateTime t); [apply safe_file_write|apply safe_ret]|].
  intros _.
  apply safe_bind;
    [destruct (reminderDateTime t); [apply safe_file_write|apply safe_ret]|].
  intros _.
  apply safe_bind; [apply emits_export_attachments|]. intros _.
  apply safe_bind; [|intros _; apply safe_ret].
  destruct md; [apply (emits_export_body true)|apply (emits_export_body false)].
Qed.

Lemma emits_export_list_md tl : safe p (export_list_md cfg w auth tl).
Proof.
  unfold export_list_md.
  apply safe_bind; [apply safe_current_timestamp|]. intros ts.
  apply safe_bind; [apply safe_requests_get, p_get|]. intros r.
  destruct (get_value r) as [|t l]; [apply safe_ret|].
  apply safe_bind; [|intros _; apply safe_emit, p_print].
  apply safe_with_open; [apply p_text|].
  apply safe_bind; [apply safe_file_write|]. intros _.
  apply safe_for_each. intros s x. apply emits_export_task.
Qed.

Lemma emits_export_list_txt tl : safe p (export_list_txt cfg w auth tl).
Proof.
  unfold export_list_txt.
  apply safe_bind; [apply safe_requests_get, p_get|]. intros r.
  destruct (get_value r) as [|t l]; [apply safe_ret|].
  apply safe_bind; [apply safe_current_timestamp|]. intros ts.
  apply safe_bind; [|intros _; apply safe_emit, p_print].
  apply safe_with_open; [apply p_text|].
  apply safe_bind; [apply safe_file_write|]. intros _.
  apply safe_for_each. intros s x. apply emits_export_task.
Qed.

End ExportEmits.

Lemma emits_export (cfg : config) (w : world) (tok : str)
    (p : event -> bool) :
  (forall url, p (EGet url (lit "Bearer " ++ tok)) = true) ->
  (SAVE_ATTACHMENTS cfg = true -> forall f d, p (EWriteBytes f d) = true) ->
  (forall f t, p (EWriteText f t) = true) ->
  (forall l, p (EPrint l) = true) ->
  safe p (export cfg w tok).
Proof.
  intros H1 H2 H3 H4. unfold export.
  apply safe_bind; [apply safe_requests_get, H1|]. intros r.
  destruct (SAVE_AS_MARKDOWN cfg); apply safe_for_each; intros _ tl.
  - now apply emits_export_list_md.
  - now apply emits_export_list_txt.
Qed.

(** A run, with the events of the export of any kind the export may
    emit. *)
Lemma run_emits (cfg : config) (w : world) (p : str -> event -> bool) :
  (forall tok, safe (p tok) (export cfg w tok)) ->
  exists o tr xs,
    auth_path w o tr
    /\ fst (authenticate w init) = o
    /\ fst (run cfg w) = outcome_of_run o
    /\ trace cfg w = cache_load_trace w ++ tr ++ xs
    /\ match o with
       | Ret tok => forallb (p tok) xs = true
       | _ => xs = []
       end.
Proof.
  intros Hp. destruct (authenticate_paths w) as [o [tr [E P]]].
  unfold trace, run, main.
  destruct o as [tok| |e].
  - destruct (Hp tok (mkState (cache_load_trace w ++ tr) 0 []))
      as [[] [st' [X [xs [E1 F]]]]].
    exists (Ret tok), tr, xs. rewrite (bind_returns _ _ _ _ _ E), X, E.
    cbn [fst snd events] in *. rewrite E1, <- app_assoc.
    repeat split; assumption.
  - exists Exit, tr, []. unfold bind. rewrite E. cbn [fst snd events].
    rewrite app_nil_r. repeat split; assumption.
  - exists (Raise e), tr, []. unfold bind. rewrite E. cbn [fst snd events].
    rewrite app_nil_r. repeat split; assumption.
Qed.

Lemma path_no_output (w : world) (o : outcome str) (tr : list event) :
  auth_path w o tr -> forallb (fun e => negb (is_output e)) tr = true.
Proof.
  intros P. destruct P as [a l d tok A S T G|a l d A S T G|pre tok S G|pre S G];
    try reflexivity;
    destruct S as [[_ ->]|[a [l [_ [_ ->]]]]]; reflexivity.
Qed.

Lemma load_no_output (w : world) :
  forallb (fun e => negb (is_output e)) (cache_load_trace w) = true.
Proof. rewrite cache_load_trace_eq. destruct (cache_file w); reflexivity. Qed.

Lemma carries_eq (auth a url : str) :
  carries auth (EGet url a) = true -> a = auth.
Proof. cbn. apply str_eqb_eq. Qed.

Lemma str_eqb_refl (a : str) : str_eqb a a = true.
Proof. now apply str_eqb_eq. Qed.

(** X6. Every request of a run carries the authorization [Bearer] and the
    token the authentication gave; a run whose authentication gives no
    token makes no request. *)
Theorem requests_carry_the_token (cfg : config) (w : world)
    (url a : str) :
  In (EGet url a) (trace cfg w) ->
  exists tok,
    fst (authenticate w init) = Ret tok /\ a = lit "Bearer " ++ tok.
Proof.
  intros H.
  destruct (run_emits cfg w (fun tok => carries (lit "Bearer " ++ tok)))
    as [o [tr [xs [P [A [_ [T X]]]]]]].
  { intros tok. apply emits_export; try reflexivity.
    intros u. cbn. apply str_eqb_refl. }
  rewrite T in H. rewrite !in_app_iff in H. destruct H as [H|[H|H]].
  - pose proof (load_no_output w) as L. rewrite forallb_forall in L.
    apply L in H. discriminate.
  - pose proof (path_no_output w o tr P) as L. rewrite forallb_forall in L.
    apply L in H. discriminate.
  - destruct o as [tok| |e]; try (subst xs; contradiction).
    exists tok. split; [exact A|].
    rewrite forallb_forall in X. apply X in H. now apply carries_eq in H.
Qed.

Lemma requests_carry_the_token_witness :
  exists tok,
    fst (authenticate w_cached init) = Ret tok
    /\ lit "Bearer TOK" = lit "Bearer " ++ tok.
Proof.
  apply (requests_carry_the_token shipped w_cached
           (GRAPH_API_URL ++ lit "delta") (lit "Bearer TOK")).
  vm_compute. do 5 right. left. reflexivity.
Defined.

(** ** What a run does after the authentication *)

Lemma app_split_at {A : Type} (q : A -> bool) (l1 l2 pre post : list A)
    (e : A) :
  forallb (fun x => negb (q x)) l1 = true -> q e = true ->
  l1 ++ l2 = pre ++ e :: post ->
  exists m, pre = l1 ++ m /\ l2 = m ++ e :: post.
Proof.
  revert pre. induction l1 as [|x l1 IH]; intros pre F Q E.
  - exists pre. now split.
  - cbn in F. apply andb_true_iff in F. destruct F as [Fx F].
    destruct pre as [|y pre]; cbn in E; inversion E; subst.
    + rewrite Q in Fx. discriminate.
    + destruct (IH pre F Q H1) as [m [-> ->]]. exists m. now split.
Qed.

(** X7. In every run, each request, each attachment file and each document
    comes after the cache was written: nothing is fetched or exported
    before a token was acquired and the cache saved. *)
Theorem outputs_follow_the_cache_write (cfg : config) (w : world)
    (pre post : list event) (e : event) :
  trace cfg w = pre ++ e :: post ->
  is_output e = true ->
  In (ECacheWrite (serialize w)) pre.
Proof.
  intros T O.
  destruct (run_paths cfg w) as [o [tr [xs [P [_ [_ [E [_ X]]]]]]]].
  rewrite E, app_assoc in T.
  assert (F : forallb (fun x => negb (is_output x)) (cache_load_trace w ++ tr)
              = true).
  { rewrite forallb_app, load_no_output, (path_no_output w o tr P).
    reflexivity. }
  destruct (app_split_at is_output _ _ _ _ _ F O T) as [m [-> Hxs]].
  destruct o as [tok| |x]; try (subst xs; destruct m; discriminate).
  destruct (path_write_last w tok tr P) as [p [-> _]].
  rewrite !in_app_iff. left. right. right. now left.
Qed.

Lemma outputs_follow_the_cache_write_witness :
  In (ECacheWrite (serialize w_cached)) (firstn 5 (trace shipped w_cached)).
Proof.
  apply (outputs_follow_the_cache_write shipped w_cached
           (firstn 5 (trace shipped w_cached))
           (skipn 6 (trace shipped w_cached))
           (EGet (GRAPH_API_URL ++ lit "delta") (lit "Bearer TOK")));
    vm_compute; reflexivity.
Defined.

(** X8. When the silent acquisition gives a result that is not empty and
    has no [access_token], the run ends with a [KeyError] right after the
    notice [Token found in cache]: the interactive acquisition is not
    attempted, the cache is not saved and nothing is exported. *)
Theorem silent_result_without_token (cfg : config) (w : world)
    (a : str) (l : list str) (d : dict) :
  get_accounts w = a :: l ->
  acquire_token_silent w a = Some d ->
  d <> [] ->
  dict_get (lit "access_token") d = None ->
  fst (run cfg w) = Raise (lit "KeyError")
  /\ trace cfg w
     = cache_load_trace w
       ++ [EGetAccounts; EAcquireSilent a;
           EPrint (lit "Token found in cache")].
Proof.
  intros A S D G.
  destruct (run_paths cfg w) as [o [tr [xs [P [_ [O [E [_ X]]]]]]]].
  rewrite O, E.
  destruct P as [a' l' d' tok A' S' T' G'|a' l' d' A' S' T' G'
                |pre tok [[A' _]|[a' [l' [A' [T' _]]]]] G'
                |pre [[A' _]|[a' [l' [A' [T' _]]]]] G'];
    rewrite A in A'; try discriminate; inversion A'; subst a' l'.
  - rewrite S in S'. inversion S'; subst d'. rewrite G in G'. discriminate.
  - subst xs. now split.
  - rewrite S in T'. destruct d; [congruence|discriminate].
  - rewrite S in T'. destruct d; [congruence|discriminate].
Qed.

Lemma silent_result_without_token_witness :
  fst (run shipped w_no_token_key) = Raise (lit "KeyError")
  /\ trace shipped w_no_token_key
     = cache_load_trace w_no_token_key
       ++ [EGetAccounts; EAcquireSilent (lit "user");
           EPrint (lit "Token found in cache")].
Proof.
  apply (silent_result_without_token shipped w_no_token_key (lit "user") []
           [(lit "token_type", lit "Bearer")]);
    [reflexivity|reflexivity|discriminate|reflexivity].
Defined.

Lemma is_export_no_bytes_export (e : event) :
  is_export_no_bytes e = true -> is_bytes_write e = false.
Proof.
  unfold is_export_no_bytes. rewrite andb_true_iff, negb_true_iff. tauto.
Qed.

(** X9. With [SAVE_ATTACHMENTS] off, as the script ships, a run writes no
    attachment file, whatever the lists, tasks and attachments are. *)
Theorem no_attachment_file_when_saving_is_off (cfg : config) (w : world) :
  SAVE_ATTACHMENTS cfg = false ->
  count is_bytes_write (trace cfg w) = 0%nat.
Proof.
  intros S.
  destruct (run_emits cfg w (fun _ => is_export_no_bytes))
    as [o [tr [xs [P [_ [_ [T X]]]]]]].
  { intros tok. apply emits_export; try reflexivity.
    intros H. rewrite S in H. discriminate. }
  rewrite T, !count_app.
  assert (L : count is_bytes_write (cache_load_trace w) = 0%nat).
  { rewrite cache_load_trace_eq. destruct (cache_file w); reflexivity. }
  assert (A : count is_bytes_write tr = 0%nat).
  { apply (count_none _ (fun e => negb (is_output e)));
      [|exact (path_no_output w o tr P)].
    intros e. destruct e; cbn; congruence. }
  assert (B : count is_bytes_write xs = 0%nat).
  { destruct o as [tok| |e]; try (subst xs; reflexivity).
    apply (count_none _ is_export_no_bytes);
      [apply is_export_no_bytes_export|exact X]. }
  rewrite L, A, B. reflexivity.
Qed.

Lemma no_attachment_file_when_saving_is_off_witness :
  count is_bytes_write (trace shipped w_cached) = 0%nat.
Proof.
  apply (no_attachment_file_when_saving_is_off shipped w_cached).
  reflexivity.
Defined.

(** ** The export as requests and texts *)

Lemma join_cons (sep p : str) (ps : list str) :
  join sep (p :: ps) = p ++ concat (map (app sep) ps).
Proof.
  revert p. induction ps as [|q ps IH]; intros p.
  - cbn. now rewrite app_nil_r.
  - change (join sep (p :: q :: ps)) with (p ++ sep ++ join sep (q :: ps)).
    rewrite IH. cbn [map concat]. now rewrite <- app_assoc.
Qed.

Section Composition.

Variable cfg : config.
Variable w : world.
Variable auth : str.

(** One attachment of the loop: the line of the attachment is written, and
    the events are those of the download. *)
Lemma download_attachment_events tl t a note :
  exists txt, forall st,
    download_attachment cfg w auth tl t a note st
    = (Ret tt, mkState (events st ++ download_events cfg w auth tl t a)
                       (clock st) (file st ++ txt)).
Proof.
  unfold download_attachment, download_events, is_file_attachment.
  fold (content_url tl t a).
  destruct (SAVE_ATTACHMENTS cfg && str_eqb (odata_type a) FILE_ATTACHMENT).
  - cbv zeta.
    destruct (content_status (get_content w (content_url tl t a)) =? 200)%Z
      eqn:E.
    + eexists. intros st. mstep. rewrite E. mstep.
      unfold file_write. cbn [events clock file].
      rewrite <- !app_assoc. reflexivity.
    + exists []. intros st. mstep. rewrite E. unfold ret.
      now rewrite app_nil_r.
  - exists []. intros st. unfold ret. destruct st. cbn.
    now rewrite !app_nil_r.
Qed.

Lemma attachments_loop_events (md : bool) tl t (atts : list attachment) :
  exists txt, forall st,
    for_each atts tt (fun _ a =>
      file_write ((if md then lit "- " else lit "    - ")
                  ++ att_name a ++ lit " (Size: " ++ str_of_N (att_size a)
                  ++ lit " bytes)" ++ [NL]) ;;
      download_attachment cfg w auth tl t a
        (if md then lit "  - Saved attachment: "
         else lit "      Saved attachment: ")) st
    = (Ret tt,
       mkState (events st ++ flat_map (download_events cfg w auth tl t) atts)
               (clock st) (file st ++ txt)).
Proof.
  induction atts as [|a atts [txt IH]].
  - exists []. intros st. destruct st. cbn. unfold ret. now rewrite !app_nil_r.
  - destruct (download_attachment_events tl t a
                (if md then lit "  - Saved attachment: "
                 else lit "      Saved attachment: ")) as [t1 H1].
    eexists. intros st. cbn [for_each flat_map]. mstep.
    rewrite (bind_returns _ _ _ _ _ (H1 _)), IH. cbn [events clock file].
    rewrite <- !app_assoc. reflexivity.
Qed.

Lemma export_attachments_events (md : bool) tl t :
  exists txt, forall st,
    export_attachments cfg w auth md tl t st
    = (Ret tt, mkState (events st ++ task_events cfg w auth tl t)
                       (clock st) (file st ++ txt)).
Proof.
  unfold export_attachments, task_events. fold (attachments_url tl t).
  destruct (get_value (get_attachments w (attachments_url tl t)))
    as [|a atts] eqn:E.
  - exists []. intros st. mstep. rewrite E. unfold ret.
    now rewrite app_nil_r.
  - destruct (attachments_loop_events md tl t (a :: atts)) as [txt H].
    eexists. intros st. mstep. rewrite E. mstep. rewrite H.
    cbn [events clock file]. rewrite <- !app_assoc. reflexivity.
Qed.

Lemma export_body_text (md : bool) t :
  exists txt, forall st,
    (if md then export_body_md w t else export_body_txt t) st
    = (Ret tt, mkState (events st) (clock st) (file st ++ txt)).
Proof.
  assert (N : forall st, ret tt st
              = (Ret tt, mkState (events st) (clock st) (file st ++ []))).
  { intros st. destruct st. unfold ret. cbn. now rewrite app_nil_r. }
  destruct md.
  - unfold export_body_md. destruct (body t) as [b|]; [|exists []; exact N].
    cbv zeta. destruct (truthy _ && truthy _); [|exists []; exact N].
    destruct (str_eqb _ _); eexists; intros st; mstep;
      unfold file_write; cbn [events clock file];
      rewrite <- !app_assoc; reflexivity.
  - unfold export_body_txt. destruct (body t) as [b|]; [|exists []; exact N].
    eexists. intros st. reflexivity.
Qed.

Lemma export_task_text (md : bool) tl t :
  exists txt, forall (first : bool) st,
    export_task cfg w auth md tl first t st
    = (Ret false,
       mkState (events st ++ task_events cfg w auth tl t) (clock st)
               (file st ++ (if first then [] else [NL; NL]) ++ txt)).
Proof.
  destruct (export_attachments_events md tl t) as [ta Ha].
  destruct (export_body_text md t) as [tb Hb].
  unfold export_task.
  assert (S : forall (o : option dateTimeTimeZone) (label : str),
            exists txt, forall st,
              match o with
              | Some d => file_write (label ++ dateTime d ++ [NL])
              | None => ret tt
              end st
              = (Ret tt, mkState (events st) (clock st) (file st ++ txt))).
  { intros [d|] label.
    - eexists. intros st. reflexivity.
    - exists []. intros st. destruct st. unfold ret. cbn.
      now rewrite app_nil_r. }
  destruct (S (dueDateTime t) (if md then lit "### Due: " else lit "  Due: "))
    as [td Hd].
  destruct (S (reminderDateTime t)
              (if md then lit "### Reminder: " else lit "  Reminder: "))
    as [tr Hr].
  eexists. intros first st.
  assert (F : forall st0,
            (if negb first then file_write [NL; NL] else ret tt) st0
            = (Ret tt, mkState (events st0) (clock st0)
                         (file st0 ++ (if first then [] else [NL; NL])))).
  { intros st0. destruct first; cbn [negb]; [|reflexivity].
    destruct st0. unfold ret. cbn. now rewrite app_nil_r. }
  rewrite (bind_returns _ _ _ _ _ (F _)). mstep.
  rewrite (bind_returns _ _ _ _ _ (Hd _)). cbn [events clock file].
  rewrite (bind_returns _ _ _ _ _ (Hr _)). cbn [events clock file].
  rewrite (bind_returns _ _ _ _ _ (Ha _)). cbn [events clock file].
  rewrite (bind_returns _ _ _ _ _ (Hb _)). cbn [events clock file].
  unfold ret. rewrite <- !app_assoc. reflexivity.
Qed.

(** The export of a task, at any state and any position in its list. *)
Lemma export_task_run (md : bool) tl (first : bool) t st :
  export_task cfg w auth md tl first t st
  = (Ret false,
     mkState (events st ++ task_events cfg w auth tl t) (clock st)
             (file st ++ (if first then [] else [NL; NL])
              ++ task_text cfg w auth md tl t)).
Proof.
  destruct (export_task_text md tl t) as [txt H].
  unfold task_text. rewrite (H true init). cbn [snd file app].
  apply H.
Qed.

Lemma tasks_loop_later (md : bool) tl (ts : list todoTask) st :
  for_each ts false (export_task cfg w auth md tl) st
  = (Ret false,
     mkState (events st ++ flat_map (task_events cfg w auth tl) ts)
             (clock st)
             (file st
              ++ concat (map (app [NL; NL])
                           (map (task_text cfg w auth md tl) ts)))).
Proof.
  revert st. induction ts as [|t ts IH]; intros st.
  - destruct st. cbn. unfold ret. now rewrite !app_nil_r.
  - cbn [for_each]. rewrite (bind_returns _ _ _ _ _ (export_task_run _ _ _ _ _)).
    rewrite IH. cbn [events clock file map concat flat_map].
    rewrite <- !app_assoc. reflexivity.
Qed.

Lemma tasks_loop (md : bool) tl (t : todoTask) (ts : list todoTask) st :
  for_each (t :: ts) true (export_task cfg w auth md tl) st
  = (Ret false,
     mkState (events st ++ flat_map (task_events cfg w auth tl) (t :: ts))
             (clock st)
             (file st
              ++ join [NL; NL] (map (task_text cfg w auth md tl) (t :: ts)))).
Proof.
  cbn [for_each]. rewrite (bind_returns _ _ _ _ _ (export_task_run _ _ _ _ _)).
  rewrite tasks_loop_later. cbn [events clock file map flat_map].
  rewrite join_cons, <- !app_assoc. reflexivity.
Qed.

(** The export of a list that has a task, in both variants. *)
Lemma export_list_md_run tl st :
  get_value (get_tasks w (tasks_url tl)) <> [] ->
  export_list_md cfg w auth tl st
  = (Ret tt,
     mkState (events st
              ++ EGet (tasks_url tl) auth
                 :: flat_map (task_events cfg w auth tl)
                      (get_value (get_tasks w (tasks_url tl)))
              ++ [EWriteText (document_name w tl st ".md")
                    (document cfg w auth true tl);
                  EPrint (exported_notice tl (document_name w tl st ".md"))])
             (S (clock st)) (file st)).
Proof.
  intros H. unfold export_list_md, document. mstep.
  destruct (get_value (get_tasks w (tasks_url tl))) as [|t ts];
    [congruence|].
  erewrite bind_returns.
  2:{ apply with_open_returns. cbn [events clock file]. mstep.
      apply tasks_loop. }
  unfold print, emit, heading, document_name. cbn [events clock file app].
  rewrite <- !app_assoc. reflexivity.
Qed.

Lemma export_list_txt_run tl st :
  get_value (get_tasks w (tasks_url tl)) <> [] ->
  export_list_txt cfg w auth tl st
  = (Ret tt,
     mkState (events st
              ++ EGet (tasks_url tl) auth
                 :: flat_map (task_events cfg w auth tl)
                      (get_value (get_tasks w (tasks_url tl)))
              ++ [EWriteText (document_name w tl st ".txt")
                    (document cfg w auth false tl);
                  EPrint (exported_notice tl (document_name w tl st ".txt"))])
             (S (clock st)) (file st)).
Proof.
  intros H. unfold export_list_txt, document. mstep.
  destruct (get_value (get_tasks w (tasks_url tl))) as [|t ts];
    [congruence|].
  mstep.
  erewrite bind_returns.
  2:{ apply with_open_returns. cbn [events clock file]. mstep.
      apply tasks_loop. }
  unfold print, emit, heading, document_name. cbn [events clock file app].
  rewrite <- !app_assoc. reflexivity.
Qed.

End Composition.

(** ** The requests and the documents of a run *)

Lemma written_texts_app (a b : list event) :
  written_texts (a ++ b) = written_texts a ++ written_texts b.
Proof.
  induction a as [|e a IH]; [reflexivity|].
  destruct e; cbn; rewrite ?IH; reflexivity.
Qed.

Lemma no_output_written (l : list event) :
  forallb (fun e => negb (is_output e)) l = true ->
  filter is_request l = [] /\ written_texts l = []
  /\ written_documents l = [].
Proof.
  induction l as [|e l IH]; [now repeat split|].
  cbn [forallb]. rewrite andb_true_iff. intros [He Hl].
  destruct (IH Hl) as [A [B C]].
  destruct e; cbn in *; try discriminate; now repeat split.
Qed.

Lemma fetch_written (l : list event) :
  forallb is_fetch l = true ->
  written_texts l = [] /\ written_documents l = [].
Proof.
  induction l as [|e l IH]; [now split|].
  cbn [forallb]. rewrite andb_true_iff. intros [He Hl].
  destruct (IH Hl) as [A B].
  destruct e; cbn in *; try discriminate; now split.
Qed.

Section Requests.

Variable cfg : config.
Variable w : world.
Variable auth : str.

Lemma download_events_fetch tl t a :
  forallb is_fetch (download_events cfg w auth tl t a) = true.
Proof.
  unfold download_events.
  destruct (SAVE_ATTACHMENTS cfg && is_file_attachment a); [|reflexivity].
  cbv zeta. destruct (_ =? _)%Z; reflexivity.
Qed.

Lemma task_events_fetch tl (ts : list todoTask) :
  forallb is_fetch (flat_map (task_events cfg w auth tl) ts) = true.
Proof.
  induction ts as [|t ts IH]; [reflexivity|].
  cbn [flat_map]. rewrite forallb_app, IH, andb_true_r.
  unfold task_events. cbn [forallb is_fetch andb].
  induction (get_value (get_attachments w (attachments_url tl t)))
    as [|a atts IHa]; [reflexivity|].
  cbn [flat_map]. now rewrite forallb_app, download_events_fetch, IHa.
Qed.

Lemma download_requests tl t (atts : list attachment) :
  filter is_request (flat_map (download_events cfg w auth tl t) atts)
  = if SAVE_ATTACHMENTS cfg
    then map (fun a => EGet (content_url tl t a) auth)
           (filter is_file_attachment atts)
    else [].
Proof.
  induction atts as [|a atts IH].
  - now destruct (SAVE_ATTACHMENTS cfg).
  - cbn [flat_map]. rewrite filter_app, IH. unfold download_events.
    destruct (SAVE_ATTACHMENTS cfg); cbn [andb filter]; [|reflexivity].
    destruct (is_file_attachment a); [|reflexivity].
    cbv zeta. destruct (_ =? _)%Z; reflexivity.
Qed.

Lemma task_events_requests tl (ts : list todoTask) :
  filter is_request (flat_map (task_events cfg w auth tl) ts)
  = flat_map (task_requests cfg w auth tl) ts.
Proof.
  induction ts as [|t ts IH]; [reflexivity|].
  cbn [flat_map]. rewrite filter_app, IH. f_equal.
  unfold task_events, task_requests. cbn [filter is_request].
  now rewrite download_requests.
Qed.

Lemma list_events_summary (md : bool) tl (name e : str) :
  get_value (get_tasks w (tasks_url tl)) <> [] ->
  named md name tl ->
  let new := EGet (tasks_url tl) auth
             :: flat_map (task_events cfg w auth tl)
                  (get_value (get_tasks w (tasks_url tl)))
             ++ [EWriteText name (document cfg w auth md tl); EPrint e] in
  filter is_request new = list_requests cfg w auth tl
  /\ written_texts new
     = (if has_tasks w tl then [document cfg w auth md tl] else [])
  /\ Forall2 (named md) (written_documents new)
       (if has_tasks w tl then [tl] else []).
Proof.
  intros H N. cbv zeta. unfold has_tasks, list_requests.
  destruct (get_value (get_tasks w (tasks_url tl))) as [|t ts] eqn:E;
    [congruence|].
  pose proof (task_events_fetch tl (t :: ts)) as F.
  destruct (fetch_written _ F) as [W1 W2].
  cbn [filter is_request written_texts written_documents].
  rewrite filter_app, written_texts_app, written_documents_app, W1, W2.
  rewrite task_events_requests. cbn. rewrite app_nil_r.
  repeat split. now constructor.
Qed.

Lemma exports_list_md tl st :
  exports_list cfg w auth true (export_list_md cfg w auth tl) tl st.
Proof.
  unfold exports_list.
  destruct (get_value (get_tasks w (tasks_url tl))) as [|t ts] eqn:E.
  - exists [EGet (tasks_url tl) auth], (S (clock st)).
    rewrite (export_list_md_empty cfg w auth tl st E).
    unfold has_tasks, list_requests. rewrite E. repeat split. constructor.
  - assert (H : get_value (get_tasks w (tasks_url tl)) <> [])
      by (rewrite E; discriminate).
    eexists _, _. split; [apply (export_list_md_run cfg w auth tl st H)|].
    apply list_events_summary; [exact H|].
    exists (strftime (now w (clock st))).
    split; [apply strftime_is_timestamp|reflexivity].
Qed.

Lemma exports_list_txt tl st :
  exports_list cfg w auth false (export_list_txt cfg w auth tl) tl st.
Proof.
  unfold exports_list.
  destruct (get_value (get_tasks w (tasks_url tl))) as [|t ts] eqn:E.
  - exists [EGet (tasks_url tl) auth], (clock st).
    rewrite (export_list_txt_empty cfg w auth tl st E).
    unfold has_tasks, list_requests. rewrite E. repeat split. constructor.
  - assert (H : get_value (get_tasks w (tasks_url tl)) <> [])
      by (rewrite E; discriminate).
    eexists _, _. split; [apply (export_list_txt_run cfg w auth tl st H)|].
    apply list_events_summary; [exact H|].
    exists (strftime (now w (clock st))).
    split; [apply strftime_is_timestamp|reflexivity].
Qed.

(** The loop over the lists. *)
Lemma lists_loop (md : bool) (f : todoTaskList -> M unit) :
  (forall tl st, exports_list cfg w auth md (f tl) tl st) ->
  forall (lists : list todoTaskList) st,
  exists new clk,
    for_each lists tt (fun _ tl => f tl) st
    = (Ret tt, mkState (events st ++ new) clk (file st))
    /\ filter is_request new = flat_map (list_requests cfg w auth) lists
    /\ written_texts new
       = map (document cfg w auth md) (filter (has_tasks w) lists)
    /\ Forall2 (named md) (written_documents new)
         (filter (has_tasks w) lists).
Proof.
  intros Hf lists. induction lists as [|tl lists IH]; intros st.
  - exists [], (clock st). destruct st. cbn. unfold ret.
    rewrite app_nil_r. repeat split. constructor.
  - destruct (Hf tl st) as [n1 [c1 [E1 [R1 [T1 D1]]]]].
    destruct (IH (mkState (events st ++ n1) c1 (file st)))
      as [n2 [c2 [E2 [R2 [T2 D2]]]]].
    exists (n1 ++ n2), c2. cbn [for_each].
    rewrite (bind_returns _ _ _ _ _ E1), E2. cbn [events clock file].
    rewrite filter_app, written_texts_app, written_documents_app, R1, R2,
      T1, T2, app_assoc.
    cbn [flat_map filter]. repeat split.
    + now destruct (has_tasks w tl).
    + destruct (has_tasks w tl).
      * now apply (Forall2_app D1 D2).
      * destruct (written_documents n1); [exact D2|inversion D1].
Qed.

End Requests.

(** The export, from any state. *)
Lemma export_summary (cfg : config) (w : world) (tok : str) (st : state) :
  let md := SAVE_AS_MARKDOWN cfg in
  let auth := lit "Bearer " ++ tok in
  let lists :=
    filter (has_tasks w)
      (get_value (get_lists w (GRAPH_API_URL ++ lit "delta"))) in
  exists new clk,
    export cfg w tok st = (Ret tt, mkState (events st ++ new) clk (file st))
    /\ filter is_request new = run_requests cfg w tok
    /\ written_texts new = map (document cfg w auth md) lists
    /\ Forall2 (named md) (written_documents new) lists.
Proof.
  cbv zeta. unfold export, run_requests. cbv zeta.
  set (auth := lit "Bearer " ++ tok).
  set (lists := get_value (get_lists w (GRAPH_API_URL ++ lit "delta"))).
  destruct (SAVE_AS_MARKDOWN cfg).
  - destruct (lists_loop cfg w auth true _ (exports_list_md cfg w auth) lists
                (mkState (events st
                          ++ [EGet (GRAPH_API_URL ++ lit "delta") auth])
                         (clock st) (file st)))
      as [n [c [E [R [T D]]]]].
    exists (EGet (GRAPH_API_URL ++ lit "delta") auth :: n), c.
    mstep. fold lists. rewrite E. cbn [events clock file].
    rewrite <- app_assoc. cbn [app filter is_request written_texts
                                 written_documents].
    rewrite R. repeat split; assumption.
  - destruct (lists_loop cfg w auth false _ (exports_list_txt cfg w auth)
                lists
                (mkState (events st
                          ++ [EGet (GRAPH_API_URL ++ lit "delta") auth])
                         (clock st) (file st)))
      as [n [c [E [R [T D]]]]].
    exists (EGet (GRAPH_API_URL ++ lit "delta") auth :: n), c.
    mstep. fold lists. rewrite E. cbn [events clock file].
    rewrite <- app_assoc. cbn [app filter is_request written_texts
                                 written_documents].
    rewrite R. repeat split; assumption.
Qed.

(** A run whose authentication gave a token is the export from the state
    the authentication left. *)
Lemma run_with_token (cfg : config) (w : world) (tok : str) :
  fst (authenticate w init) = Ret tok ->
  exists tr,
    auth_path w (Ret tok) tr
    /\ run cfg w
       = export cfg w tok (mkState (cache_load_trace w ++ tr) 0 []).
Proof.
  intros H. destruct (authenticate_paths w) as [o [tr [E P]]].
  rewrite E in H. cbn [fst] in H. subst o.
  exists tr. split; [exact P|].
  unfold run, main. now rewrite (bind_returns _ _ _ _ _ E).
Qed.

Lemma run_summary (cfg : config) (w : world) (tok : str) :
  fst (authenticate w init) = Ret tok ->
  let md := SAVE_AS_MARKDOWN cfg in
  let auth := lit "Bearer " ++ tok in
  let lists :=
    filter (has_tasks w)
      (get_value (get_lists w (GRAPH_API_URL ++ lit "delta"))) in
  fst (run cfg w) = Ret tt
  /\ filter is_request (trace cfg w) = run_requests cfg w tok
  /\ written_texts (trace cfg w) = map (document cfg w auth md) lists
  /\ Forall2 (named md) (written_documents (trace cfg w)) lists.
Proof.
  intros H. cbv zeta.
  destruct (run_with_token cfg w tok H) as [tr [P E]].
  destruct (export_summary cfg w tok (mkState (cache_load_trace w ++ tr) 0 []))
    as [n [c [X [R [T D]]]]].
  unfold trace. rewrite E, X. cbn [fst snd events].
  assert (F : forallb (fun x => negb (is_output x)) (cache_load_trace w ++ tr)
              = true).
  { rewrite forallb_app, load_no_output, (path_no_output w _ tr P).
    reflexivity. }
  destruct (no_output_written _ F) as [A [B C]].
  rewrite filter_app, written_texts_app, written_documents_app, A, B, C.
  repeat split; assumption.
Qed.

(** X11. The requests of a run whose authentication gave a token, in
    order: the listing of the lists; then for each list the listing of its
    tasks and, for each task, the listing of its attachments followed, when
    attachments are saved, by the content of each file attachment.  Every
    task costs a request, whether it has an attachment or not. *)
Theorem requests_of_a_run (cfg : config) (w : world) (tok : str) :
  fst (authenticate w init) = Ret tok ->
  filter is_request (trace cfg w) = run_requests cfg w tok.
Proof. intros H. apply (run_summary cfg w tok H). Qed.

Lemma requests_of_a_run_witness :
  filter is_request (trace shipped w_cached)
  = run_requests shipped w_cached (lit "TOK").
Proof. apply (requests_of_a_run shipped w_cached (lit "TOK")). reflexivity. Defined.



(** X10. The export of a task writes the same text and makes the same
    requests at any state and at any position in its list, after two
    newlines when the task is not the first; and the export of a list that
    has a task writes one document, the heading followed by the texts of
    the tasks joined by two newlines, between the request for the tasks
    with the events of the tasks and the notice. *)
Theorem document_of_a_list (cfg : config) (w : world) (auth : str)
    (tl : todoTaskList) (st : state) :
  get_value (get_tasks w (tasks_url tl)) <> [] ->
  let tasks := get_value (get_tasks w (tasks_url tl)) in
  let events_of (md : bool) :=
    events st
    ++ EGet (tasks_url tl) auth
       :: flat_map (task_events cfg w auth tl) tasks
    ++ [EWriteText (document_name w tl st (if md then ".md"%string else ".txt"%string))
          (document cfg w auth md tl);
        EPrint (exported_notice tl
                  (document_name w tl st (if md then ".md"%string else ".txt"%string)))] in
  (forall md first t st0,
     export_task cfg w auth md tl first t st0
     = (Ret false,
        mkState (events st0 ++ task_events cfg w auth tl t) (clock st0)
          (file st0 ++ (if first then [] else [NL; NL])
           ++ task_text cfg w auth md tl t)))
  /\ export_list_md cfg w auth tl st
     = (Ret tt, mkState (events_of true) (S (clock st)) (file st))
  /\ export_list_txt cfg w auth tl st
     = (Ret tt, mkState (events_of false) (S (clock st)) (file st)).
Proof.
  intros H. cbv zeta. split; [|split].
  - intros md first t st0. apply export_task_run.
  - now apply export_list_md_run.
  - now apply export_list_txt_run.
Qed.

Lemma document_of_a_list_witness :
  export_list_md shipped w_cached (lit "Bearer TOK") groceries init
  = (Ret tt,
     mkState
       [EGet (tasks_url groceries) (lit "Bearer TOK");
        EGet (attachments_url groceries buy_milk) (lit "Bearer TOK");
        EWriteText (lit "Groceries_20240307_090500.md")
          (lit "# List: Groceries" ++ [NL; NL; NL]
           ++ lit "## Task: Buy milk" ++ [NL]
           ++ lit "### Status: Completed" ++ [NL]
           ++ lit "### Attachments:" ++ [NL]
           ++ lit "- receipt.pdf (Size: 120 bytes)" ++ [NL]
           ++ lit "### Content:<b>2%</b>" ++ [NL]);
        EPrint (lit "Tasks for list 'Groceries' have been exported to Groceries_20240307_090500.md")]
       1 []).
Proof.
  apply (proj1 (proj2 (document_of_a_list shipped w_cached (lit "Bearer TOK")
                         groceries init ltac:(discriminate)))).
Defined.

(** ** The names of the documents *)

Lemma digit_eq (a b : N) : digit a = digit b -> a mod 10 = b mod 10.
Proof. unfold digit. lia. Qed.

(** A number is its last digit and ten times the rest. *)
Lemma div_mod_10 (n : N) : n = 10 * (n / 10) + n mod 10 /\ n mod 10 < 10.
Proof.
  split; [apply N.div_mod; discriminate|apply N.mod_upper_bound; discriminate].
Qed.

Lemma pad2_inj (a b : N) : a < 100 -> b < 100 -> pad2 a = pad2 b -> a = b.
Proof.
  unfold pad2. intros A B H. injection H as H1 H0.
  apply digit_eq in H1, H0.
  destruct (div_mod_10 a) as [Ea Ua]. destruct (div_mod_10 b) as [Eb Ub].
  destruct (div_mod_10 (a / 10)) as [Ea1 Ua1].
  destruct (div_mod_10 (b / 10)) as [Eb1 Ub1].
  set (a0 := a mod 10) in *. set (b0 := b mod 10) in *.
  set (a1 := (a / 10) mod 10) in *. set (b1 := (b / 10) mod 10) in *.
  set (qa := a / 10) in *. set (qb := b / 10) in *.
  set (qa1 := qa / 10) in *. set (qb1 := qb / 10) in *.
  clearbody a0 b0 a1 b1 qa qb qa1 qb1. lia.
Qed.

Lemma pad4_inj (a b : N) :
  a < 10000 -> b < 10000 -> pad4 a = pad4 b -> a = b.
Proof.
  unfold pad4. intros A B H. injection H as H3 H2 H1 H0.
  apply digit_eq in H3, H2, H1, H0.
  change 1000 with (10 * (10 * 10)) in H3.
  change 100 with (10 * 10) in H2.
  repeat rewrite <- N.Div0.div_div in H3.
  repeat rewrite <- N.Div0.div_div in H2.
  destruct (div_mod_10 a) as [Ea Ua]. destruct (div_mod_10 b) as [Eb Ub].
  destruct (div_mod_10 (a / 10)) as [Ea1 Ua1].
  destruct (div_mod_10 (b / 10)) as [Eb1 Ub1].
  destruct (div_mod_10 (a / 10 / 10)) as [Ea2 Ua2].
  destruct (div_mod_10 (b / 10 / 10)) as [Eb2 Ub2].
  destruct (div_mod_10 (a / 10 / 10 / 10)) as [Ea3 Ua3].
  destruct (div_mod_10 (b / 10 / 10 / 10)) as [Eb3 Ub3].
  set (a0 := a mod 10) in *. set (b0 := b mod 10) in *.
  set (qa := a / 10) in *. set (qb := b / 10) in *.
  set (a1 := qa mod 10) in *. set (b1 := qb mod 10) in *.
  set (qa1 := qa / 10) in *. set (qb1 := qb / 10) in *.
  set (a2 := qa1 mod 10) in *. set (b2 := qb1 mod 10) in *.
  set (qa2 := qa1 / 10) in *. set (qb2 := qb1 / 10) in *.
  set (a3 := qa2 mod 10) in *. set (b3 := qb2 mod 10) in *.
  set (qa3 := qa2 / 10) in *. set (qb3 := qb2 / 10) in *.
  clearbody a0 b0 a1 b1 a2 b2 a3 b3 qa qb qa1 qb1 qa2 qb2 qa3 qb3. lia.
Qed.

(** X13. On dates and times of the calendar and the clock, the time stamp
    of a document determines the date and the time to the second: two
    documents get the same stamp only when they are written within the same
    second. *)
Theorem strftime_injective (d1 d2 : datetime) :
  valid_datetime d1 -> valid_datetime d2 ->
  strftime d1 = strftime d2 -> d1 = d2.
Proof.
  intros [Y1 [M1 [D1 [H1 [N1 S1]]]]] [Y2 [M2 [D2 [H2 [N2 S2]]]]] E.
  destruct d1 as [y1 m1 a1 h1 n1 s1], d2 as [y2 m2 a2 h2 n2 s2].
  cbn [year month day hour minute second] in *.
  unfold strftime in E. cbn [year month day hour minute second] in E.
  assert (Ey : pad4 y1 = pad4 y2) by (unfold pad4, pad2 in *; cbn [app] in E; congruence).
  assert (Em : pad2 m1 = pad2 m2) by (unfold pad4, pad2 in *; cbn [app] in E; congruence).
  assert (Ea : pad2 a1 = pad2 a2) by (unfold pad4, pad2 in *; cbn [app] in E; congruence).
  assert (Eh : pad2 h1 = pad2 h2) by (unfold pad4, pad2 in *; cbn [app] in E; congruence).
  assert (En : pad2 n1 = pad2 n2) by (unfold pad4, pad2 in *; cbn [app] in E; congruence).
  assert (Es : pad2 s1 = pad2 s2) by (unfold pad4, pad2 in *; cbn [app] in E; congruence).
  apply pad4_inj in Ey; [|assumption|assumption].
  apply pad2_inj in Em, Ea, Eh, En, Es; try assumption.
  now subst.
Qed.

Lemma strftime_injective_witness :
  mkDatetime 2024 3 7 9 5 0 = a_time.
Proof.
  apply (strftime_injective (mkDatetime 2024 3 7 9 5 0) a_time);
    [unfold valid_datetime; cbn; lia|unfold valid_datetime; cbn; lia
    |reflexivity].
Defined.

Lemma strftime_length (d : datetime) : length (strftime d) = 15%nat.
Proof. reflexivity. Qed.

Lemma app_inj_length {A : Type} (a c b d : list A) :
  length b = length d -> a ++ b = c ++ d -> a = c /\ b = d.
Proof.
  revert c. induction a as [|x a IH]; intros c L E.
  - destruct c as [|y c]; [now split|].
    cbn in E. subst b. cbn in L. rewrite length_app in L. lia.
  - destruct c as [|y c].
    + cbn in E. subst d. cbn in L. rewrite length_app in L. lia.
    + cbn in E. injection E as -> E. destruct (IH c L E) as [-> ->].
      now split.
Qed.

(** X14. Two documents of one variant get the same file name exactly when
    the display names of their lists are the same once sanitized and their
    time stamps are the same. *)
Theorem document_name_collision (w : world) (tl1 tl2 : todoTaskList)
    (st1 st2 : state) (md : bool) :
  let ext := if md then ".md"%string else ".txt"%string in
  document_name w tl1 st1 ext = document_name w tl2 st2 ext
  <-> sanitize_filename (displayName tl1) = sanitize_filename (displayName tl2)
      /\ strftime (now w (clock st1)) = strftime (now w (clock st2)).
Proof.
  cbv zeta. unfold document_name. split.
  - intros H. apply app_inj_length in H.
    + destruct H as [H1 H2]. split; [exact H1|].
      apply app_inv_head in H2. now apply app_inv_tail in H2.
    + now rewrite !length_app, !strftime_length.
  - intros [-> ->]. reflexivity.
Qed.

Lemma has_tasks_nonempty (w : world) (tl : todoTaskList) :
  has_tasks w tl = true -> get_value (get_tasks w (tasks_url tl)) <> [].
Proof.
  unfold has_tasks. destruct (get_value _); [discriminate|]. discriminate.
Qed.

Lemma written_documents_list (cfg : config) (w : world) (auth : str)
    (tl : todoTaskList) (name text notice : str) :
  written_documents
    (EGet (tasks_url tl) auth
     :: flat_map (task_events cfg w auth tl)
          (get_value (get_tasks w (tasks_url tl)))
     ++ [EWriteText name text; EPrint notice])
  = [name].
Proof.
  cbn [written_documents]. rewrite written_documents_app.
  rewrite (written_documents_fetch _ (task_events_fetch cfg w auth tl _)).
  reflexivity.
Qed.

(** X15. A run over two lists that both have a task, whose display names
    are the same once sanitized, and that are exported within the same
    second, writes both documents under one file name: the second is
    written over the first. *)
Theorem same_name_same_second (cfg : config) (w : world) (tok : str)
    (tl1 tl2 : todoTaskList) :
  fst (authenticate w init) = Ret tok ->
  get_value (get_lists w (GRAPH_API_URL ++ lit "delta")) = [tl1; tl2] ->
  has_tasks w tl1 = true -> has_tasks w tl2 = true ->
  sanitize_filename (displayName tl1) = sanitize_filename (displayName tl2) ->
  strftime (now w 0) = strftime (now w 1) ->
  exists name,
    written_documents (trace cfg w) = [name; name]
    /\ named (SAVE_AS_MARKDOWN cfg) name tl1.
Proof.
  intros A L T1 T2 N S.
  apply has_tasks_nonempty in T1, T2.
  destruct (run_with_token cfg w tok A) as [tr [P E]].
  assert (F : forallb (fun x => negb (is_output x)) (cache_load_trace w ++ tr)
              = true).
  { rewrite forallb_app, load_no_output, (path_no_output w _ tr P).
    reflexivity. }
  destruct (no_output_written _ F) as [_ [_ W]].
  rewrite written_documents_app in W. apply app_eq_nil in W.
  destruct W as [W1 W2].
  unfold trace. rewrite E. unfold export. mstep. rewrite L.
  exists (sanitize_filename (displayName tl1) ++ lit "_"
          ++ strftime (now w 0) ++ extension (SAVE_AS_MARKDOWN cfg)).
  split.
  - destruct (SAVE_AS_MARKDOWN cfg); cbn [for_each].
    + rewrite (bind_returns _ _ _ _ _ (export_list_md_run _ _ _ _ _ T1)).
      rewrite (bind_returns _ _ _ _ _ (export_list_md_run _ _ _ _ _ T2)).
      unfold ret, document_name. cbn [snd events clock].
      rewrite !written_documents_app, W1, W2, !written_documents_list.
      cbn [written_documents app].
      rewrite <- N, <- S. reflexivity.
    + rewrite (bind_returns _ _ _ _ _ (export_list_txt_run _ _ _ _ _ T1)).
      rewrite (bind_returns _ _ _ _ _ (export_list_txt_run _ _ _ _ _ T2)).
      unfold ret, document_name. cbn [snd events clock].
      rewrite !written_documents_app, W1, W2, !written_documents_list.
      cbn [written_documents app].
      rewrite <- N, <- S. reflexivity.
  - exists (strftime (now w 0)). split; [apply strftime_is_timestamp|].
    reflexivity.
Qed.

Lemma same_name_same_second_witness :
  exists name,
    written_documents (trace shipped w_two_lists) = [name; name]
    /\ named true name plans_a.
Proof.
  apply (same_name_same_second shipped w_two_lists (lit "TOK")
           plans_a plans_b); reflexivity.
Defined.
